(** * KnightTourText: Warnsdorff's open knight tour on a rectangular board

    A shallow embedding of [KnightTourText.cpp] and the properties of its
    move generator ([findMovesFromSquare]), of its minimum scan
    ([findMinimumIndex]) and of the recursive tour driver ([makeMove]).

    Conventions of the embedding:
    - a C++ [int] is a [Z]; every [int] addition, subtraction and
      multiplication of the source is written with [wrap], which gives
      signed overflow (undefined in C++) its two's complement result;
    - a [std::vector] is a [list]; [operator[]] outside the vector is
      undefined behaviour in C++ and is the outcome [Fault] here;
    - [std::cout] is the list of the chunks written to it, in order;
      [std::cin] is the list of the outcomes of the successive
      extractions [std::cin >> i];
    - [makeMove] recurses once per move; the embedding takes a fuel
      argument and the termination theorems give the fuel that suffices. *)

From Stdlib Require Import ZArith Lia String Ascii.
From stdpp Require Import base tactics option list.

Local Open Scope Z_scope.

(** ** Outcomes of a computation *)

Inductive result (A : Type) : Type :=
  | Ret (a : A)
  | Fault
  | OutOfFuel.
Arguments Ret {A} a.
Arguments Fault {A}.
Arguments OutOfFuel {A}.

#[global] Instance result_ret : MRet result := @Ret.
#[global] Instance result_bind : MBind result := λ A B f m,
  match m with
  | Ret a => f a
  | Fault => Fault
  | OutOfFuel => OutOfFuel
  end.

(** [for (int i = lo; i < hi; i++) body], with the loop-carried variables
    in [s]. *)
Fixpoint for_loop {S : Type} (n : nat) (i : Z)
    (body : Z → S → result S) (s : S) : result S :=
  match n with
  | O => Ret s
  | Datatypes.S n' => s' ← body i s; for_loop n' (i + 1) body s'
  end.

Definition for_range {S : Type} (lo hi : Z)
    (body : Z → S → result S) (s : S) : result S :=
  for_loop (Z.to_nat (hi - lo)) lo body s.

(** [for (T p : v) out.push_back(f(p))] *)
Fixpoint for_each {A B : Type} (f : A → result B) (v : list A) : result (list B) :=
  match v with
  | [] => Ret []
  | p :: v' => b ← f p; bs ← for_each f v'; Ret (b :: bs)
  end.

(** ** Machine integers *)

Definition INT_MIN : Z := - 2 ^ 31.
Definition INT_MAX : Z := 2 ^ 31 - 1.

Definition wrap (z : Z) : Z := (z + 2 ^ 31) mod 2 ^ 32 - 2 ^ 31.

Definition int_add (a b : Z) : Z := wrap (a + b).
Definition int_sub (a b : Z) : Z := wrap (a - b).
Definition int_mul (a b : Z) : Z := wrap (a * b).

Definition is_int (z : Z) : Prop := INT_MIN ≤ z ≤ INT_MAX.

(** ** Vectors and the board *)

Definition vec_size {A : Type} (v : list A) : Z := Z.of_nat (length v).

Definition vec_at {A : Type} (v : list A) (i : Z) : result A :=
  if decide (0 ≤ i) then
    match v !! Z.to_nat i with
    | Some a => Ret a
    | None => Fault
    end
  else Fault.

Definition vec_set {A : Type} (v : list A) (i : Z) (a : A) : result (list A) :=
  if decide (0 ≤ i < vec_size v) then Ret (<[Z.to_nat i := a]> v) else Fault.

(** Cell values: 0 not visited, 1 the knight is here, 2 visited. *)
Abbreviation board := (list (list Z)).

Definition board_at (Board : board) (x y : Z) : result Z :=
  row ← vec_at Board x; vec_at row y.

Definition board_set (Board : board) (x y v : Z) : result board :=
  row ← vec_at Board x; row' ← vec_set row y v; vec_set Board x row'.

(** ** Console *)

Definition endl : string := String (ascii_of_nat 10) EmptyString.

Definition glyph (c : Z) : string :=
  if decide (c = 1) then "[K]"%string
  else if decide (c = 2) then "[/]"%string
  else "[ ]"%string.

Definition printBoard (Board : board) (cout : list string) : list string :=
  cout ++ concat (map (λ row, map glyph row ++ [endl]) Board) ++ [endl].

(** ** findMinimumIndex *)

Definition findMinimumIndex (vec : list Z) : result Z :=
  let index := 0 in
  smallest ← vec_at vec 0;
  r ← for_range 1 (vec_size vec)
        (λ i '(smallest, index),
           v ← vec_at vec i;
           if decide (v < smallest) then Ret (v, i) else Ret (smallest, index))
        (smallest, index);
  Ret (r.2).

(** ** isOnBoard and findMovesFromSquare *)

Definition isOnBoard (x y boardX boardY : Z) : bool :=
  (x >=? 0) && (boardX >? x) && (y >=? 0) && (boardY >? y).

Definition dx : list Z := [2; 1; -1; -2; -2; -1; 1; 2].
Definition dy : list Z := [1; 2; 2; 1; -1; -2; -2; -1].

Definition findMovesFromSquare (x y boardX boardY : Z) (Board : board)
    : result (list (Z * Z)) :=
  for_range 0 8
    (λ i moveArray,
       let newX := int_add x (nth (Z.to_nat i) dx 0) in
       let newY := int_add y (nth (Z.to_nat i) dy 0) in
       if isOnBoard newX newY boardX boardY then
         c ← board_at Board newX newY;
         if decide (c ≠ 2) then Ret (moveArray ++ [(newX, newY)])
         else Ret moveArray
       else Ret moveArray)
    [].

(** ** makeMove *)

(** What [makeMove] reads and writes outside its by-value parameters: the
    counter passed by reference and the console. *)
Record world : Type := World { movesMade : Z; console : list string }.

Fixpoint makeMove (fuel : nat) (Board : board)
    (boardX boardY knightRow knightCol : Z) (w : world) : result world :=
  match fuel with
  | O => OutOfFuel
  | Datatypes.S fuel' =>
    array ← findMovesFromSquare knightRow knightCol boardX boardY Board;
    if decide (array ≠ []) then
      sizes ← for_each
        (λ p : Z * Z,
           l ← findMovesFromSquare p.1 p.2 boardX boardY Board;
           Ret (wrap (vec_size l)))
        array;
      index ← findMinimumIndex sizes;
      nextMove ← vec_at array index;
      Board1 ← board_set Board knightRow knightCol 2;
      Board2 ← board_set Board1 nextMove.1 nextMove.2 1;
      let knightRow := nextMove.1 in
      let knightCol := nextMove.2 in
      let w1 := World (movesMade w) (printBoard Board2 (console w)) in
      let w2 := World (int_add (movesMade w1) 1) (console w1) in
      makeMove fuel' Board2 boardX boardY knightRow knightCol w2
    else Ret w
  end.

(** ** Reading the configuration *)

(** [inputInteger]: each round prints the prompt and extracts once;
    a failed extraction ([None]) or a value outside the bounds starts
    another round.  When the input is exhausted every further extraction
    fails and the loop never ends: [OutOfFuel]. *)
Fixpoint inputInteger (lowerBound upperBound : Z) (text : string)
    (cin : list (option Z)) (cout : list string)
    : result (Z * list (option Z) * list string) :=
  match cin with
  | [] => OutOfFuel
  | t :: cin' =>
    let cout := cout ++ [text] in
    match t with
    | Some i =>
      if (i >=? lowerBound) && (i <=? upperBound)
      then Ret (i, cin', cout)
      else inputInteger lowerBound upperBound text cin' cout
    | None => inputInteger lowerBound upperBound text cin' cout
    end
  end.

Definition getPairFromUser (lowerBound upperBound lowerBound2 upperBound2 : Z)
    (text text2 : string) (offset : Z)
    (cin : list (option Z)) (cout : list string)
    : result ((Z * Z) * list (option Z) * list string) :=
  '(i, cin, cout) ← inputInteger lowerBound upperBound text cin cout;
  let x := int_sub i offset in
  '(j, cin, cout) ← inputInteger lowerBound2 upperBound2 text2 cin cout;
  let y := int_sub j offset in
  Ret ((x, y), cin, cout).

(** ** main *)

Definition banner : string :=
  "This program attempts an open Knight Tour using Warnsdorff's algorithm. Please specify square/rectangular board dimensions, and the Knight's starting square.".

Definition msg_completed : string := "Tour Completed!".
Definition msg_no_moves : string := "No More Moves!".

(** Lines 187-194 of [main]: the board of zeros, the knight on the start
    square, the first display, and the call of [makeMove].  ([main] only
    passes sizes from 3 to 10; a size below 0 would build no row here.) *)
Definition tour (fuel : nat) (rows cols startRow startCol : Z)
    (cout : list string) : result world :=
  let Board := replicate (Z.to_nat rows) (replicate (Z.to_nat cols) 0) in
  Board ← board_set Board startRow startCol 1;
  let cout := printBoard Board cout in
  let movesMade := 0 in
  makeMove fuel Board rows cols startRow startCol (World movesMade cout).

(** Lines 195-200 of [main]. *)
Definition report (rows cols movesMade : Z) (cout : list string) : list string :=
  if decide (movesMade = int_sub (int_mul rows cols) 1)
  then cout ++ [msg_completed; endl]
  else cout ++ [msg_no_moves; endl].

Definition main (fuel : nat) (cin : list (option Z)) : result (Z * list string) :=
  let cout := [banner; endl] in
  '(boardSize, cin, cout) ←
    getPairFromUser 3 10 3 10
      "Enter number of rows (between 3-10):"
      "Enter number of columns (between 3-10):" 0 cin cout;
  '(start, cin, cout) ←
    getPairFromUser 1 boardSize.1 1 boardSize.2
      "Enter starting row of knight:"
      "Enter starting column of knight:" 1 cin cout;
  w ← tour fuel boardSize.1 boardSize.2 start.1 start.2 cout;
  Ret (0, report boardSize.1 boardSize.2 (movesMade w) (console w)).

(** ** The tour as a sequence of positions

    [makeMove] passes the board by value and returns nothing, so the boards
    of a run live in the frames of the recursion.  [advance] is one frame
    of [makeMove] up to the recursive call, without the display and the
    counter; [positions] lists the (board, knight) pairs of the successive
    frames.  [makeMove_positions] below ties both to [makeMove]. *)

Record position : Type :=
  Position { pos_board : board; pos_row : Z; pos_col : Z }.

Definition advance (boardX boardY : Z) (s : position) : result (option position) :=
  let Board := pos_board s in
  let knightRow := pos_row s in
  let knightCol := pos_col s in
  array ← findMovesFromSquare knightRow knightCol boardX boardY Board;
  if decide (array ≠ []) then
    sizes ← for_each
      (λ p : Z * Z,
         l ← findMovesFromSquare p.1 p.2 boardX boardY Board;
         Ret (wrap (vec_size l)))
      array;
    index ← findMinimumIndex sizes;
    nextMove ← vec_at array index;
    Board1 ← board_set Board knightRow knightCol 2;
    Board2 ← board_set Board1 nextMove.1 nextMove.2 1;
    Ret (Some (Position Board2 nextMove.1 nextMove.2))
  else Ret None.

Fixpoint positions (fuel : nat) (boardX boardY : Z) (s : position)
    : result (list position) :=
  match fuel with
  | O => OutOfFuel
  | Datatypes.S fuel' =>
    r ← advance boardX boardY s;
    match r with
    | Some s' => l ← positions fuel' boardX boardY s'; Ret (s :: l)
    | None => Ret [s]
    end
  end.

(** The display and the count of one move, for the frame entered at [s]. *)
Definition record_move (w : world) (s : position) : world :=
  World (int_add (movesMade w) 1) (printBoard (pos_board s) (console w)).

(** The board and the knight when [main] calls [makeMove]. *)
Definition start_position (rows cols startRow startCol : Z) : result position :=
  let Board := replicate (Z.to_nat rows) (replicate (Z.to_nat cols) 0) in
  Board ← board_set Board startRow startCol 1;
  Ret (Position Board startRow startCol).

(** ** Specification-side definitions *)

(** The eight knight offsets, clockwise from (2,1). *)
Definition offsets : list (Z * Z) :=
  [(2, 1); (1, 2); (-1, 2); (-2, 1); (-2, -1); (-1, -2); (1, -2); (2, -1)].

(** A square is a legal target: on the board and not visited. *)
Definition legal (boardX boardY : Z) (Board : board) (p : Z * Z) : bool :=
  isOnBoard p.1 p.2 boardX boardY &&
  match board_at Board p.1 p.2 with
  | Ret c => bool_decide (c ≠ 2)
  | _ => false
  end.

(** The candidates as the specification words them: the offsets applied to
    the source, in order, filtered by [legal]. *)
Definition candidates (x y boardX boardY : Z) (Board : board) : list (Z * Z) :=
  filter (λ p, legal boardX boardY Board p = true)
         (map (λ d : Z * Z, (int_add x d.1, int_add y d.2)) offsets).

(** The second-order count of a candidate. *)
Definition score (boardX boardY : Z) (Board : board) (p : Z * Z) : Z :=
  vec_size (candidates p.1 p.2 boardX boardY Board).

(** The board is a [rows] by [cols] grid. *)
Definition board_dims (Board : board) (rows cols : Z) : Prop :=
  vec_size Board = rows ∧ Forall (λ row, vec_size row = cols) Board.

(** Number of cells holding [v]. *)
Definition indicator (v c : Z) : nat := if decide (c = v) then 1%nat else 0%nat.

Definition count_row (v : Z) (row : list Z) : nat :=
  sum_list (map (indicator v) row).

Definition count_cells (v : Z) (Board : board) : nat :=
  sum_list (map (count_row v) Board).

(** The invariant of a run: a grid of the announced size whose cells are
    0, 1 or 2, with the knight on the only cell that holds 1. *)
Record tour_inv (rows cols : Z) (s : position) : Prop := TourInv {
  inv_dims : board_dims (pos_board s) rows cols;
  inv_cells : Forall (Forall (λ c, c = 0 ∨ c = 1 ∨ c = 2)) (pos_board s);
  inv_knight : board_at (pos_board s) (pos_row s) (pos_col s) = Ret 1;
  inv_one : count_cells 1 (pos_board s) = 1%nat
}.

(** [i] is the first index of a least element of [vec]. *)
Definition first_min_index (vec : list Z) (i : Z) : Prop :=
  0 ≤ i < vec_size vec ∧
  ∃ m, vec !! Z.to_nat i = Some m ∧
    ∀ (k : nat) (v : Z), vec !! k = Some v →
      m ≤ v ∧ ((k < Z.to_nat i)%nat → m < v).

(** The successive frames of a run: each is the [advance] of the one
    before, and the last one finds no candidate. *)
Inductive is_run (boardX boardY : Z) : list position → Prop :=
  | run_halt (s : position) :
      advance boardX boardY s = Ret None → is_run boardX boardY [s]
  | run_step (s s' : position) (l : list position) :
      advance boardX boardY s = Ret (Some s') →
      is_run boardX boardY (s' :: l) → is_run boardX boardY (s :: s' :: l).

(** A session of the program: a 3 x 3 board, the knight on its
    centre square. *)
Definition demo_input : list (option Z) := [Some 3; None; Some 3; Some 2; Some 2].

Definition demo_output : list string :=
  Eval vm_compute in
    match main 12 demo_input with
    | Ret (_, out) => out
    | _ => []
    end.

(** An extraction that [inputInteger] does not accept: it failed, or its
    value is outside the bounds. *)
Definition rejected (lowerBound upperBound : Z) (t : option Z) : Prop :=
  match t with
  | Some i => ¬ (lowerBound ≤ i ≤ upperBound)
  | None => True
  end.

(** The target of the offset [d] from the square (x, y), as the loop of
    [findMovesFromSquare] computes it. *)
Definition target (x y : Z) (d : Z * Z) : Z * Z :=
  (int_add x d.1, int_add y d.2).

#[local] Instance string_eq_dec : EqDecision string := string_dec.

(** Number of chunks equal to [g] in a console. *)
Definition count_chunks (g : string) (cout : list string) : nat :=
  length (filter (λ c, c = g) cout).

(** [makeMove] once more, returning besides the world what its by-value
    parameters [Board], [knightRow] and [knightCol] hold in the innermost
    frame when the recursion ends.  The C++ function returns nothing and
    its last frame falls through the [if]; this is the same body, kept
    line for line, so that the board the run ends on can be stated.
    [makeMove_final_world] shows that its world is that of [makeMove]. *)
Fixpoint makeMove_final (fuel : nat) (Board : board)
    (boardX boardY knightRow knightCol : Z) (w : world)
    : result (world * position) :=
  match fuel with
  | O => OutOfFuel
  | Datatypes.S fuel' =>
    array ← findMovesFromSquare knightRow knightCol boardX boardY Board;
    if decide (array ≠ []) then
      sizes ← for_each
        (λ p : Z * Z,
           l ← findMovesFromSquare p.1 p.2 boardX boardY Board;
           Ret (wrap (vec_size l)))
        array;
      index ← findMinimumIndex sizes;
      nextMove ← vec_at array index;
      Board1 ← board_set Board knightRow knightCol 2;
      Board2 ← board_set Board1 nextMove.1 nextMove.2 1;
      let knightRow := nextMove.1 in
      let knightCol := nextMove.2 in
      let w1 := World (movesMade w) (printBoard Board2 (console w)) in
      let w2 := World (int_add (movesMade w1) 1) (console w1) in
      makeMove_final fuel' Board2 boardX boardY knightRow knightCol w2
    else Ret (w, Position Board knightRow knightCol)
  end.

(** The run on the 3 x 4 board from its corner (0, 0): eleven moves. *)
Definition demo_start : position :=
  Position [[1; 0; 0; 0]; [0; 0; 0; 0]; [0; 0; 0; 0]] 0 0.

Definition demo_run : list position :=
  Eval vm_compute in
    match positions 12 3 4 demo_start with
    | Ret l => l
    | _ => []
    end.

Definition demo_world (fuel : nat) (cout : list string) : world :=
  match tour fuel 3 4 0 0 cout with
  | Ret w => w
  | _ => World 0 []
  end.

(** * Proofs *)

(** ** The outcome monad and the loops *)

Lemma bind_Ret {A B : Type} (m : result A) (f : A → result B) (b : B) :
  m ≫= f = Ret b ↔ ∃ a, m = Ret a ∧ f a = Ret b.
Proof.
  destruct m as [a| |]; simpl; split.
  - intros H. by exists a.
  - by intros (a' & [= <-] & H).
  - done.
  - by intros (a' & [=] & _).
  - done.
  - by intros (a' & [=] & _).
Qed.

(** Splits a hypothesis [x ← m; k = Ret r] into its two halves. *)
Ltac inv_bind H :=
  let a := fresh "a" in
  let H1 := fresh H "l" in
  let H2 := fresh H "r" in
  apply bind_Ret in H as (a & H1 & H2).

Section ForLoop.
Context {S : Type} (body : Z → S → result S).

(** Partial correctness: an invariant kept by every normal iteration
    holds when the loop returns. *)
Lemma for_loop_partial (P : Z → S → Prop) (n : nat) :
  ∀ (i : Z) (s s' : S),
    (∀ j t t', i ≤ j < i + Z.of_nat n → P j t → body j t = Ret t' → P (j + 1) t') →
    P i s → for_loop n i body s = Ret s' → P (i + Z.of_nat n) s'.
Proof.
  induction n as [|n IH]; intros i s s' Hstep Hi Hrun; simpl in Hrun.
  - injection Hrun as <-. by replace (i + Z.of_nat 0) with i by lia.
  - inv_bind Hrun.
    replace (i + Z.of_nat (Datatypes.S n)) with ((i + 1) + Z.of_nat n) by lia.
    apply (IH (i + 1) a s'); [| |done].
    + intros j t t' Hj. apply Hstep. lia.
    + apply (Hstep i s a); [lia|done..].
Qed.

(** Total correctness: when every iteration returns and keeps the
    invariant, so does the loop. *)
Lemma for_loop_total (P : Z → S → Prop) (n : nat) :
  ∀ (i : Z) (s : S),
    (∀ j t, i ≤ j < i + Z.of_nat n → P j t → ∃ t', body j t = Ret t' ∧ P (j + 1) t') →
    P i s → ∃ s', for_loop n i body s = Ret s' ∧ P (i + Z.of_nat n) s'.
Proof.
  induction n as [|n IH]; intros i s Hstep Hi; simpl.
  - exists s. split; [done|]. by replace (i + Z.of_nat 0) with i by lia.
  - destruct (Hstep i s) as (t' & Hb & Ht'); [lia|done|].
    rewrite Hb. simpl.
    replace (i + Z.of_nat (Datatypes.S n)) with ((i + 1) + Z.of_nat n) by lia.
    apply IH; [|done].
    intros j t Hj. apply Hstep. lia.
Qed.
End ForLoop.

Lemma for_each_Ret {A B : Type} (f : A → result B) (g : A → B) (v : list A) :
  (∀ p, p ∈ v → f p = Ret (g p)) → for_each f v = Ret (map g v).
Proof.
  induction v as [|p v IH]; intros Hf; simpl; [done|].
  rewrite (Hf p) by apply list_elem_of_here. simpl.
  rewrite IH; [done|]. intros q Hq. apply Hf. by apply list_elem_of_further.
Qed.

(** ** Machine integers *)

Lemma wrap_id (z : Z) : is_int z → wrap z = z.
Proof.
  unfold is_int, INT_MIN, INT_MAX, wrap. intros Hz.
  rewrite Z.mod_small; lia.
Qed.

Lemma wrap_is_int (z : Z) : is_int (wrap z).
Proof.
  unfold is_int, INT_MIN, INT_MAX, wrap.
  pose proof (Z.mod_pos_bound (z + 2 ^ 31) (2 ^ 32)). lia.
Qed.

Lemma wrap_congr (z : Z) : ∃ k, wrap z = z - k * 2 ^ 32.
Proof.
  exists ((z + 2 ^ 31) / 2 ^ 32). unfold wrap.
  rewrite Z.mod_eq by lia. lia.
Qed.

Lemma wrap_le_nonneg (z : Z) : 0 ≤ z → wrap z ≤ z.
Proof.
  intros Hz. destruct (wrap_congr z) as [k Hk].
  pose proof (wrap_is_int z) as Hr. unfold is_int, INT_MIN, INT_MAX in Hr.
  assert (0 ≤ k); nia.
Qed.

Lemma wrap_add_wrap (a b : Z) : wrap (wrap a + b) = wrap (a + b).
Proof.
  destruct (wrap_congr a) as [k Hk]. rewrite Hk. unfold wrap.
  replace (a - k * 2 ^ 32 + b + 2 ^ 31) with (a + b + 2 ^ 31 + (- k) * 2 ^ 32) by lia.
  by rewrite Z.mod_add by lia.
Qed.

(** A knight offset never maps a coordinate to itself, wrap-around or not. *)
Lemma int_add_offset_ne (x d : Z) : 0 < Z.abs d < 2 ^ 32 → int_add x d ≠ x.
Proof.
  unfold int_add. intros Hd Heq.
  destruct (wrap_congr (x + d)) as [k Hk]. rewrite Heq in Hk.
  assert (d = k * 2 ^ 32) as Hdk by lia. nia.
Qed.

(** ** Vectors *)

Lemma vec_at_Ret {A : Type} (v : list A) (i : Z) (a : A) :
  vec_at v i = Ret a ↔ 0 ≤ i ∧ v !! Z.to_nat i = Some a.
Proof.
  unfold vec_at. destruct (decide (0 ≤ i)) as [Hi|Hi].
  - destruct (v !! Z.to_nat i) as [a'|]; split.
    + by intros [= <-].
    + by intros [_ [= <-]].
    + done.
    + by intros [_ [=]].
  - split; [done|]. by intros [? _].
Qed.

Lemma vec_at_in_range {A : Type} (v : list A) (i : Z) :
  0 ≤ i < vec_size v → ∃ a, vec_at v i = Ret a.
Proof.
  unfold vec_size. intros Hi.
  destruct (lookup_lt_is_Some_2 v (Z.to_nat i)) as [a Ha]; [lia|].
  exists a. apply vec_at_Ret. split; [lia|done].
Qed.

Lemma vec_set_Ret {A : Type} (v v' : list A) (i : Z) (a : A) :
  vec_set v i a = Ret v' ↔ 0 ≤ i < vec_size v ∧ v' = <[Z.to_nat i := a]> v.
Proof.
  unfold vec_set. destruct (decide _) as [Hi|Hi]; split.
  - by intros [= <-].
  - by intros [_ ->].
  - done.
  - by intros [? _].
Qed.

Lemma vec_size_set {A : Type} (v : list A) (n : nat) (a : A) :
  vec_size (<[n := a]> v) = vec_size v.
Proof. unfold vec_size. by rewrite length_insert. Qed.

(** ** The board *)

Lemma board_at_Ret (Board : board) (x y c : Z) :
  board_at Board x y = Ret c ↔
  0 ≤ x ∧ 0 ≤ y ∧ ∃ row, Board !! Z.to_nat x = Some row ∧ row !! Z.to_nat y = Some c.
Proof.
  unfold board_at. rewrite bind_Ret. split.
  - intros (row & [Hx Hrow]%vec_at_Ret & [Hy Hc]%vec_at_Ret). eauto.
  - intros (Hx & Hy & row & Hrow & Hc). exists row.
    split; apply vec_at_Ret; done.
Qed.

Lemma board_set_Ret (Board Board' : board) (x y v : Z) :
  board_set Board x y v = Ret Board' ↔
  0 ≤ x ∧ 0 ≤ y ∧ ∃ row, Board !! Z.to_nat x = Some row ∧
    (Z.to_nat y < length row)%nat ∧
    Board' = <[Z.to_nat x := <[Z.to_nat y := v]> row]> Board.
Proof.
  unfold board_set. rewrite bind_Ret. split.
  - intros (row & [Hx Hrow]%vec_at_Ret & H). inv_bind H.
    apply vec_set_Ret in Hl as [Hy ->]. apply vec_set_Ret in Hr as [_ ->].
    unfold vec_size in Hy. split; [done|]. split; [lia|].
    exists row. split; [done|]. split; [lia|done].
  - intros (Hx & Hy & row & Hrow & Hlen & ->). exists row.
    split; [by apply vec_at_Ret|]. apply bind_Ret.
    exists (<[Z.to_nat y := v]> row). split; apply vec_set_Ret.
    + unfold vec_size. split; [lia|done].
    + split; [|done]. apply lookup_lt_Some in Hrow. unfold vec_size. lia.
Qed.

Lemma board_set_in_range (Board : board) (x y c v : Z) :
  board_at Board x y = Ret c → ∃ Board', board_set Board x y v = Ret Board'.
Proof.
  intros (Hx & Hy & row & Hrow & Hc)%board_at_Ret.
  eexists. apply board_set_Ret. split; [done|]. split; [done|].
  exists row. split; [done|]. split; [|done]. by apply lookup_lt_Some in Hc.
Qed.

Lemma board_at_set_eq (Board Board' : board) (x y v : Z) :
  board_set Board x y v = Ret Board' → board_at Board' x y = Ret v.
Proof.
  intros (Hx & Hy & row & Hrow & Hlen & ->)%board_set_Ret.
  apply board_at_Ret. split; [done|]. split; [done|].
  exists (<[Z.to_nat y := v]> row). split.
  - apply list_lookup_insert_eq. by apply lookup_lt_Some in Hrow.
  - by apply list_lookup_insert_eq.
Qed.

Lemma board_at_set_ne (Board Board' : board) (x y v x' y' : Z) :
  board_set Board x y v = Ret Board' → (x', y') ≠ (x, y) →
  board_at Board' x' y' = board_at Board x' y'.
Proof.
  intros (Hx & Hy & row & Hrow & Hlen & ->)%board_set_Ret Hne.
  unfold board_at, vec_at.
  destruct (decide (0 ≤ x')) as [Hx'|]; [|done].
  destruct (decide (Z.to_nat x' = Z.to_nat x)) as [Heq|Hneq].
  - assert (x' = x) as -> by lia.
    rewrite list_lookup_insert_eq by (by apply lookup_lt_Some in Hrow).
    rewrite Hrow. simpl.
    destruct (decide (0 ≤ y')) as [Hy'|]; [|done].
    rewrite list_lookup_insert_ne; [done|].
    intros Heq'. apply Hne. f_equal. lia.
  - by rewrite list_lookup_insert_ne.
Qed.

Lemma board_dims_set (Board Board' : board) (rows cols x y v : Z) :
  board_dims Board rows cols → board_set Board x y v = Ret Board' →
  board_dims Board' rows cols.
Proof.
  intros [Hr Hc] (Hx & Hy & row & Hrow & Hlen & ->)%board_set_Ret.
  split.
  - by rewrite vec_size_set.
  - apply Forall_insert; [done|]. rewrite vec_size_set.
    by apply (Forall_lookup_1 _ _ _ _ Hc Hrow).
Qed.

Lemma board_at_on_board (Board : board) (rows cols x y : Z) :
  board_dims Board rows cols → isOnBoard x y rows cols = true →
  ∃ c, board_at Board x y = Ret c.
Proof.
  intros [Hr Hc] Hon. unfold isOnBoard in Hon.
  apply andb_prop in Hon as [Hon Hy2]. apply andb_prop in Hon as [Hon Hy1].
  apply andb_prop in Hon as [Hx1 Hx2].
  destruct (vec_at_in_range Board x) as [row Hrow]; [lia|].
  pose proof Hrow as [_ Hl]%vec_at_Ret.
  pose proof (Forall_lookup_1 _ _ _ _ Hc Hl) as Hlen. simpl in Hlen.
  destruct (vec_at_in_range row y) as [c Hcell]; [lia|].
  exists c. unfold board_at. by rewrite Hrow.
Qed.

Lemma isOnBoard_spec (x y boardX boardY : Z) :
  isOnBoard x y boardX boardY = true ↔ 0 ≤ x < boardX ∧ 0 ≤ y < boardY.
Proof.
  unfold isOnBoard. rewrite !andb_true_iff. lia.
Qed.

(** ** Counting cells *)

Lemma sum_list_insert {A : Type} (f : A → nat) (l : list A) (i : nat) (a b : A) :
  l !! i = Some a →
  (sum_list (map f (<[i := b]> l)) + f a = sum_list (map f l) + f b)%nat.
Proof.
  revert i. induction l as [|c l IH]; intros [|i] Hl; simpl in *; try done.
  - injection Hl as ->. lia.
  - specialize (IH i Hl). lia.
Qed.

Lemma count_cells_set (u : Z) (Board Board' : board) (x y c v : Z) :
  board_at Board x y = Ret c → board_set Board x y v = Ret Board' →
  (count_cells u Board' + indicator u c = count_cells u Board + indicator u v)%nat.
Proof.
  intros (_ & _ & row & Hrow & Hc)%board_at_Ret
         (_ & _ & row' & Hrow' & _ & ->)%board_set_Ret.
  assert (row' = row) as -> by congruence.
  unfold count_cells.
  pose proof (sum_list_insert (count_row u) Board _ row (<[Z.to_nat y := v]> row) Hrow) as H1.
  pose proof (sum_list_insert (indicator u) row _ c v Hc) as H2.
  unfold count_row in *. lia.
Qed.

Lemma count_cells_pos (u : Z) (Board : board) (x y : Z) :
  board_at Board x y = Ret u → (1 ≤ count_cells u Board)%nat.
Proof.
  intros Hat.
  destruct (board_set_in_range Board x y u (u + 1) Hat) as [B' Hset].
  pose proof (count_cells_set u _ _ _ _ _ _ Hat Hset) as H.
  unfold indicator in H. rewrite decide_True in H by done.
  rewrite decide_False in H by lia. lia.
Qed.

(** Two distinct cells holding [u] make the count at least two. *)
Lemma count_cells_unique (u : Z) (Board : board) (x y x' y' : Z) :
  count_cells u Board = 1%nat →
  board_at Board x y = Ret u → board_at Board x' y' = Ret u →
  (x', y') = (x, y).
Proof.
  intros Hone Hat Hat'.
  destruct (decide ((x', y') = (x, y))) as [|Hne]; [done|exfalso].
  destruct (board_set_in_range Board x y u (u + 1) Hat) as [B' Hset].
  pose proof (count_cells_set u _ _ _ _ _ _ Hat Hset) as H.
  unfold indicator in H. rewrite decide_True in H by done.
  rewrite decide_False in H by lia.
  rewrite <- (board_at_set_ne _ _ _ _ _ _ _ Hset Hne) in Hat'.
  apply count_cells_pos in Hat'. lia.
Qed.

Lemma count_row_replicate (u c : Z) (n : nat) :
  count_row u (replicate n c) = (n * indicator u c)%nat.
Proof. induction n as [|n IH]; simpl; [done|]. unfold count_row in *. simpl. lia. Qed.

Lemma count_cells_replicate (u : Z) (row : list Z) (n : nat) :
  count_cells u (replicate n row) = (n * count_row u row)%nat.
Proof. induction n as [|n IH]; simpl; [done|]. unfold count_cells in *. simpl. lia. Qed.

(** ** findMovesFromSquare computes [candidates] *)

Lemma offsets_nth (j : Z) :
  0 ≤ j < 8 →
  ∃ d, offsets !! Z.to_nat j = Some d ∧
       nth (Z.to_nat j) dx 0 = d.1 ∧ nth (Z.to_nat j) dy 0 = d.2.
Proof.
  intros Hj. assert (Z.to_nat j < 8)%nat as Hn by lia.
  generalize dependent (Z.to_nat j). intros n Hn.
  do 8 (destruct n as [|n]; [eexists; repeat split|]). lia.
Qed.

Lemma legal_spec (boardX boardY : Z) (Board : board) (p : Z * Z) :
  legal boardX boardY Board p = true ↔
  (0 ≤ p.1 < boardX ∧ 0 ≤ p.2 < boardY) ∧
  ∃ c, board_at Board p.1 p.2 = Ret c ∧ c ≠ 2.
Proof.
  unfold legal. rewrite andb_true_iff, isOnBoard_spec.
  destruct (board_at Board p.1 p.2) as [c| |].
  - rewrite bool_decide_eq_true. split.
    + intros [? ?]. eauto.
    + intros [? (c' & [= <-] & ?)]. done.
  - split; [by intros [_ ?]|by intros [_ (c' & [=] & _)]].
  - split; [by intros [_ ?]|by intros [_ (c' & [=] & _)]].
Qed.

(** One iteration of the loop of [findMovesFromSquare]. *)
Lemma emit_step (boardX boardY : Z) (Board : board) (p : Z * Z)
    (acc acc' : list (Z * Z)) :
  (if isOnBoard p.1 p.2 boardX boardY then
     c ← board_at Board p.1 p.2;
     if decide (c ≠ 2) then Ret (acc ++ [p]) else Ret acc
   else Ret acc) = Ret acc' →
  acc' = acc ++ filter (λ q, legal boardX boardY Board q = true) [p].
Proof.
  rewrite filter_cons, filter_nil. unfold legal.
  destruct (isOnBoard p.1 p.2 boardX boardY); simpl.
  - intros H. inv_bind H. rewrite Hl.
    destruct (decide (a ≠ 2)) as [Hc|Hc]; injection Hr as <-.
    + destruct (decide (_ = true)) as [|Hd]; [done|].
      exfalso. apply Hd. by apply bool_decide_eq_true.
    + destruct (decide (_ = true)) as [Hd|]; [|by rewrite app_nil_r].
      by apply bool_decide_eq_true in Hd.
  - intros [= <-]. by rewrite app_nil_r.
Qed.

Lemma findMovesFromSquare_candidates (x y boardX boardY : Z) (Board : board)
    (l : list (Z * Z)) :
  findMovesFromSquare x y boardX boardY Board = Ret l →
  l = candidates x y boardX boardY Board.
Proof.
  unfold findMovesFromSquare, for_range. intros Hrun.
  eapply (for_loop_partial _
    (λ j acc, acc = filter (λ q, legal boardX boardY Board q = true)
       (map (λ d : Z * Z, (int_add x d.1, int_add y d.2))
            (take (Z.to_nat j) offsets)))) in Hrun; [exact Hrun| |done].
  intros j acc acc' Hj -> Hbody. cbv beta zeta in Hbody.
  destruct (offsets_nth j) as (d & Hd & Hdx & Hdy); [lia|].
  rewrite Hdx, Hdy in Hbody.
  apply (emit_step _ _ _ (int_add x d.1, int_add y d.2)) in Hbody.
  rewrite Hbody. replace (Z.to_nat (j + 1)) with (Datatypes.S (Z.to_nat j)) by lia.
  rewrite (take_S_r _ _ _ Hd), map_app, filter_app. done.
Qed.

(** On a grid of the announced size the generator never faults. *)
Lemma findMovesFromSquare_total (x y boardX boardY : Z) (Board : board) :
  board_dims Board boardX boardY →
  findMovesFromSquare x y boardX boardY Board
  = Ret (candidates x y boardX boardY Board).
Proof.
  intros Hdims.
  assert (∃ l, findMovesFromSquare x y boardX boardY Board = Ret l) as [l Hl].
  { unfold findMovesFromSquare, for_range.
    edestruct (for_loop_total
      (λ i moveArray,
         let newX := int_add x (nth (Z.to_nat i) dx 0) in
         let newY := int_add y (nth (Z.to_nat i) dy 0) in
         if isOnBoard newX newY boardX boardY then
           c ← board_at Board newX newY;
           if decide (c ≠ 2) then Ret (moveArray ++ [(newX, newY)])
           else Ret moveArray
         else Ret moveArray)
      (λ _ _, True) (Z.to_nat (8 - 0)) 0 []) as (l & Hl & _); [|done|by exists l].
    intros j acc _ _. cbv beta zeta.
    destruct (isOnBoard _ _ boardX boardY) eqn:Hon; [|by eexists].
    destruct (board_at_on_board _ _ _ _ _ Hdims Hon) as [c ->]. simpl.
    destruct (decide (c ≠ 2)); by eexists. }
  rewrite Hl. f_equal. by apply findMovesFromSquare_candidates.
Qed.

Lemma elem_of_candidates (x y boardX boardY : Z) (Board : board) (p : Z * Z) :
  p ∈ candidates x y boardX boardY Board ↔
  legal boardX boardY Board p = true ∧
  ∃ d, d ∈ offsets ∧ p = (int_add x d.1, int_add y d.2).
Proof.
  unfold candidates. rewrite list_elem_of_filter, list_elem_of_In, in_map_iff.
  split; intros [Hl (d & H1 & H2)]; (split; [done|]); exists d.
  - by apply list_elem_of_In in H2.
  - by apply list_elem_of_In in H1.
Qed.

Lemma offsets_small (d : Z * Z) :
  d ∈ offsets → (Z.abs d.1 = 1 ∨ Z.abs d.1 = 2) ∧ (Z.abs d.2 = 1 ∨ Z.abs d.2 = 2).
Proof.
  unfold offsets. rewrite !elem_of_cons, elem_of_nil.
  intros H. repeat destruct H as [->|H]; simpl; lia || done.
Qed.

(** A candidate is never its own source. *)
Lemma candidates_ne_source (x y boardX boardY : Z) (Board : board) (p : Z * Z) :
  p ∈ candidates x y boardX boardY Board → p ≠ (x, y).
Proof.
  intros [_ (d & Hd & ->)]%elem_of_candidates [= Hx _].
  apply offsets_small in Hd as [Hd _].
  apply (int_add_offset_ne x d.1); [lia|done].
Qed.

Lemma candidates_length (x y boardX boardY : Z) (Board : board) :
  (length (candidates x y boardX boardY Board) ≤ 8)%nat.
Proof.
  unfold candidates.
  etransitivity; [apply length_filter|]. by rewrite length_map.
Qed.

(** ** findMinimumIndex *)

Lemma findMinimumIndex_spec (vec : list Z) :
  vec ≠ [] → ∃ i, findMinimumIndex vec = Ret i ∧ first_min_index vec i.
Proof.
  intros Hne. unfold findMinimumIndex.
  destruct vec as [|v0 vec']; [done|]. set (vec := v0 :: vec').
  assert (vec_at vec 0 = Ret v0) as -> by reflexivity. simpl mbind.
  unfold for_range.
  edestruct (for_loop_total
    (λ i '(smallest, index),
       v ← vec_at vec i;
       if decide (v < smallest) then Ret (v, i) else Ret (smallest, index))
    (λ j s, 0 ≤ s.2 < j ∧ vec !! Z.to_nat s.2 = Some s.1 ∧
       ∀ (k : nat) (v : Z), (k < Z.to_nat j)%nat → vec !! k = Some v →
         s.1 ≤ v ∧ ((k < Z.to_nat s.2)%nat → s.1 < v))
    (Z.to_nat (vec_size vec - 1)) 1 (v0, 0)) as ([sm idx] & -> & Hidx & Hsm & Hmin).
  - intros j [sm idx] Hj (Hidx & Hsm & Hmin). simpl in *.
    destruct (vec_at_in_range vec j) as [v Hv]; [lia|].
    rewrite Hv. simpl.
    apply vec_at_Ret in Hv as [_ Hv].
    destruct (decide (v < sm)) as [Hlt|Hge]; eexists; (split; [done|]); simpl.
    + split; [lia|]. split; [done|].
      intros k u Hk Hu.
      destruct (decide (k = Z.to_nat j)) as [->|Hkj].
      * assert (u = v) as -> by congruence. lia.
      * destruct (Hmin k u) as [H1 _]; [lia|done|]. lia.
    + split; [lia|]. split; [done|].
      intros k u Hk Hu.
      destruct (decide (k = Z.to_nat j)) as [->|Hkj].
      * assert (u = v) as -> by congruence. lia.
      * apply Hmin; [lia|done].
  - simpl. split; [lia|]. split; [done|].
    intros k v Hk Hv. assert (k = 0%nat) as -> by lia.
    simpl in Hv. injection Hv as ->. lia.
  - simpl in *. exists idx. split; [done|].
    assert (1 ≤ vec_size vec) as Hsz by (unfold vec_size, vec; simpl; lia).
    split; [lia|]. exists sm. split; [done|].
    intros k v Hv. apply Hmin; [|done].
    apply lookup_lt_Some in Hv. unfold vec_size in *. lia.
Qed.

(** ** One frame of makeMove *)

Lemma scores_Ret (boardX boardY : Z) (Board : board) (array : list (Z * Z)) :
  board_dims Board boardX boardY →
  for_each
    (λ p : Z * Z,
       l ← findMovesFromSquare p.1 p.2 boardX boardY Board;
       Ret (wrap (vec_size l)))
    array
  = Ret (map (score boardX boardY Board) array).
Proof.
  intros Hdims. apply for_each_Ret. intros p _.
  rewrite findMovesFromSquare_total by done. simpl. f_equal.
  apply wrap_id. unfold score, vec_size, is_int, INT_MIN, INT_MAX.
  pose proof (candidates_length p.1 p.2 boardX boardY Board). lia.
Qed.

Lemma advance_unfold (boardX boardY : Z) (s : position) :
  board_dims (pos_board s) boardX boardY →
  advance boardX boardY s =
  let array := candidates (pos_row s) (pos_col s) boardX boardY (pos_board s) in
  if decide (array ≠ []) then
    index ← findMinimumIndex (map (score boardX boardY (pos_board s)) array);
    nextMove ← vec_at array index;
    Board1 ← board_set (pos_board s) (pos_row s) (pos_col s) 2;
    Board2 ← board_set Board1 nextMove.1 nextMove.2 1;
    Ret (Some (Position Board2 nextMove.1 nextMove.2))
  else Ret None.
Proof.
  intros Hdims. unfold advance.
  rewrite findMovesFromSquare_total by done. simpl.
  destruct (decide (_ ≠ [])); [|done].
  by rewrite scores_Ret.
Qed.

Lemma makeMove_unfold (fuel : nat) (Board : board)
    (boardX boardY knightRow knightCol : Z) (w : world) :
  makeMove (Datatypes.S fuel) Board boardX boardY knightRow knightCol w =
  r ← advance boardX boardY (Position Board knightRow knightCol);
  match r with
  | Some s' =>
      makeMove fuel (pos_board s') boardX boardY (pos_row s') (pos_col s')
        (record_move w s')
  | None => Ret w
  end.
Proof.
  unfold advance. simpl.
  destruct (findMovesFromSquare knightRow knightCol boardX boardY Board)
    as [array| |]; simpl; [|done..].
  destruct (decide (array ≠ [])); [|done].
  destruct (for_each _ array) as [sizes| |]; simpl; [|done..].
  destruct (findMinimumIndex sizes) as [index| |]; simpl; [|done..].
  destruct (vec_at array index) as [nextMove| |]; simpl; [|done..].
  destruct (board_set Board knightRow knightCol 2) as [Board1| |]; simpl; [|done..].
  destruct (board_set Board1 nextMove.1 nextMove.2 1) as [Board2| |]; simpl; done.
Qed.

Lemma positions_head (fuel : nat) (boardX boardY : Z) (s : position)
    (l : list position) :
  positions fuel boardX boardY s = Ret l → ∃ l', l = s :: l'.
Proof.
  destruct fuel as [|fuel]; simpl; [done|].
  intros H. inv_bind H. destruct a as [s'|].
  - inv_bind Hr. injection Hrr as <-. eauto.
  - injection Hr as <-. eauto.
Qed.

(** [makeMove] walks through [positions], recording each move. *)
Lemma makeMove_positions (fuel : nat) (boardX boardY : Z) :
  ∀ (s : position) (w : world),
  makeMove fuel (pos_board s) boardX boardY (pos_row s) (pos_col s) w =
  l ← positions fuel boardX boardY s;
  Ret (foldl record_move w (tail l)).
Proof.
  induction fuel as [|fuel IH]; intros s w; [done|].
  rewrite makeMove_unfold. destruct s as [B kr kc]. simpl.
  destruct (advance boardX boardY (Position B kr kc)) as [[s'|]| |]; simpl; try done.
  rewrite IH.
  destruct (positions fuel boardX boardY s') as [l| |] eqn:Hl; simpl; [|done..].
  apply positions_head in Hl as [l' ->]. done.
Qed.

Lemma cells_at (P : Z → Prop) (Board : board) (x y c : Z) :
  Forall (Forall P) Board → board_at Board x y = Ret c → P c.
Proof.
  intros HP (_ & _ & row & Hrow & Hc)%board_at_Ret.
  eapply Forall_lookup_1; [|exact Hc].
  by apply (Forall_lookup_1 _ _ _ _ HP Hrow).
Qed.

Lemma cells_set (P : Z → Prop) (Board Board' : board) (x y v : Z) :
  Forall (Forall P) Board → P v → board_set Board x y v = Ret Board' →
  Forall (Forall P) Board'.
Proof.
  intros HP Hv (_ & _ & row & Hrow & _ & ->)%board_set_Ret.
  apply Forall_insert; [done|]. apply Forall_insert; [|done].
  by apply (Forall_lookup_1 _ _ _ _ HP Hrow).
Qed.

(** A candidate of the knight's square is a cell that holds 0. *)
Lemma candidate_unvisited (rows cols : Z) (s : position) (p : Z * Z) :
  tour_inv rows cols s →
  p ∈ candidates (pos_row s) (pos_col s) rows cols (pos_board s) →
  board_at (pos_board s) p.1 p.2 = Ret 0.
Proof.
  intros [Hdims Hcells Hknight Hone] Hp.
  pose proof (candidates_ne_source _ _ _ _ _ _ Hp) as Hne.
  apply elem_of_candidates in Hp as [Hlegal _].
  apply legal_spec in Hlegal as (_ & c & Hc & Hc2).
  destruct (cells_at _ _ _ _ _ Hcells Hc) as [->|[->| ->]]; [done| |done].
  exfalso. apply Hne.
  pose proof (count_cells_unique 1 _ _ _ _ _ Hone Hknight Hc) as Heq.
  destruct p. simpl in *. done.
Qed.

(** The two writes of a move keep the invariant and turn one 0 into the
    new 1, the old 1 into a 2, and nothing else. *)
Lemma move_inv (rows cols : Z) (s : position) (x y : Z) (Board1 Board2 : board) :
  tour_inv rows cols s →
  board_at (pos_board s) x y = Ret 0 →
  board_set (pos_board s) (pos_row s) (pos_col s) 2 = Ret Board1 →
  board_set Board1 x y 1 = Ret Board2 →
  tour_inv rows cols (Position Board2 x y) ∧
  (count_cells 0 Board2 + 1 = count_cells 0 (pos_board s))%nat ∧
  (count_cells 2 Board2 = count_cells 2 (pos_board s) + 1)%nat ∧
  ∀ x' y', board_at Board2 x' y' =
    if decide ((x', y') = (x, y)) then Ret 1
    else if decide ((x', y') = (pos_row s, pos_col s)) then Ret 2
    else board_at (pos_board s) x' y'.
Proof.
  intros [Hdims Hcells Hknight Hone] Hnext Hset1 Hset2.
  assert ((x, y) ≠ (pos_row s, pos_col s)) as Hne.
  { intros [= -> ->]. congruence. }
  assert (board_at Board1 x y = Ret 0) as Hnext1.
  { by rewrite (board_at_set_ne _ _ _ _ _ _ _ Hset1 Hne). }
  pose proof (count_cells_set 0 _ _ _ _ _ _ Hknight Hset1) as H01.
  pose proof (count_cells_set 1 _ _ _ _ _ _ Hknight Hset1) as H11.
  pose proof (count_cells_set 2 _ _ _ _ _ _ Hknight Hset1) as H21.
  pose proof (count_cells_set 0 _ _ _ _ _ _ Hnext1 Hset2) as H02.
  pose proof (count_cells_set 1 _ _ _ _ _ _ Hnext1 Hset2) as H12.
  pose proof (count_cells_set 2 _ _ _ _ _ _ Hnext1 Hset2) as H22.
  unfold indicator in *. simpl in *.
  split; [|split; [lia|split; [lia|]]].
  - split; simpl.
    + eapply board_dims_set; [|exact Hset2]. eapply board_dims_set; done.
    + apply (cells_set _ Board1 _ x y 1); [|by auto|done].
      apply (cells_set _ (pos_board s) _ (pos_row s) (pos_col s) 2); [done|by auto|done].
    + by eapply board_at_set_eq.
    + lia.
  - intros x' y'. destruct (decide ((x', y') = (x, y))) as [[= -> ->]|Hn1].
    + by eapply board_at_set_eq.
    + rewrite (board_at_set_ne _ _ _ _ _ _ _ Hset2 Hn1).
      destruct (decide ((x', y') = (pos_row s, pos_col s))) as [[= -> ->]|Hn2].
      * by eapply board_at_set_eq.
      * by rewrite (board_at_set_ne _ _ _ _ _ _ _ Hset1 Hn2).
Qed.

(** The two outcomes of a frame entered under the invariant. *)
Lemma advance_cases (rows cols : Z) (s : position) :
  tour_inv rows cols s →
  let array := candidates (pos_row s) (pos_col s) rows cols (pos_board s) in
  (array = [] ∧ advance rows cols s = Ret None) ∨
  (∃ (i : Z) (next : Z * Z) (Board1 Board2 : board),
     array ≠ [] ∧
     findMinimumIndex (map (score rows cols (pos_board s)) array) = Ret i ∧
     array !! Z.to_nat i = Some next ∧
     board_at (pos_board s) next.1 next.2 = Ret 0 ∧
     board_set (pos_board s) (pos_row s) (pos_col s) 2 = Ret Board1 ∧
     board_set Board1 next.1 next.2 1 = Ret Board2 ∧
     advance rows cols s = Ret (Some (Position Board2 next.1 next.2))).
Proof.
  intros Hinv array. pose proof Hinv as [Hdims Hcells Hknight Hone].
  rewrite advance_unfold by done. fold array. simpl.
  destruct (decide (array ≠ [])) as [Hne|Heq].
  - right.
    destruct (findMinimumIndex_spec (map (score rows cols (pos_board s)) array))
      as (i & Hi & Hrange & _).
    { by destruct array. }
    unfold vec_size in Hrange. rewrite length_map in Hrange.
    destruct (vec_at_in_range array i) as [next Hnext]; [done|].
    pose proof Hnext as [_ Hlook]%vec_at_Ret.
    assert (next ∈ array) as Hin by (apply list_elem_of_lookup; eauto).
    pose proof (candidate_unvisited _ _ _ _ Hinv Hin) as Hzero.
    destruct (board_set_in_range _ _ _ _ 2 Hknight) as [Board1 Hset1].
    assert (board_at Board1 next.1 next.2 = Ret 0) as Hzero1.
    { rewrite (board_at_set_ne _ _ _ _ _ _ _ Hset1); [done|].
      intros Heq. rewrite <- surjective_pairing in Heq.
      by apply (candidates_ne_source _ _ _ _ _ _ Hin). }
    destruct (board_set_in_range _ _ _ _ 1 Hzero1) as [Board2 Hset2].
    exists i, next, Board1, Board2.
    rewrite Hi. simpl. rewrite Hnext. simpl. rewrite Hset1. simpl.
    rewrite Hset2. simpl. done.
  - left. split; [|done]. by destruct (decide (array = [])) as [?|?]; [|exfalso; apply Heq].
Qed.

(** ** Runs *)

Lemma positions_is_run (boardX boardY : Z) (fuel : nat) :
  ∀ (s : position) (l : list position),
  positions fuel boardX boardY s = Ret l → is_run boardX boardY l.
Proof.
  induction fuel as [|fuel IH]; intros s l H; simpl in H; [done|].
  inv_bind H. destruct a as [s'|].
  - inv_bind Hr. injection Hrr as <-.
    pose proof (positions_head _ _ _ _ _ Hrl) as [l' ->].
    apply run_step; [done|]. by apply (IH s').
  - injection Hr as <-. by apply run_halt.
Qed.

(** A run is the same whatever fuel completes it. *)
Lemma is_run_unique (boardX boardY : Z) (l1 : list position) :
  is_run boardX boardY l1 → ∀ l2, is_run boardX boardY l2 →
  head l1 = head l2 → l1 = l2.
Proof.
  induction 1 as [s Hs|s s' l Hs Hrun IH]; intros l2 H2 Hhd.
  - destruct H2 as [s2 H2|s2 s2' l2 H2 _]; simpl in Hhd; injection Hhd as <-.
    + done.
    + congruence.
  - destruct H2 as [s2 H2|s2 s2' l2 H2 Hrun2]; simpl in Hhd; injection Hhd as <-.
    + congruence.
    + assert (s2' = s') as -> by congruence.
      f_equal. by apply IH.
Qed.

Lemma positions_fuel_irrelevant (boardX boardY : Z) (s : position)
    (fuel1 fuel2 : nat) (l1 l2 : list position) :
  positions fuel1 boardX boardY s = Ret l1 →
  positions fuel2 boardX boardY s = Ret l2 → l1 = l2.
Proof.
  intros H1 H2.
  pose proof (positions_head _ _ _ _ _ H1) as [l1' ->].
  pose proof (positions_head _ _ _ _ _ H2) as [l2' ->].
  apply positions_is_run in H1, H2.
  by apply (is_run_unique _ _ _ H1 _ H2).
Qed.

(** Under the invariant a run completes within one frame more than the
    number of cells that hold 0, and every frame keeps the invariant. *)
Lemma positions_terminate (rows cols : Z) (n : nat) :
  ∀ (s : position) (fuel : nat),
  tour_inv rows cols s → count_cells 0 (pos_board s) = n → (n < fuel)%nat →
  ∃ l, positions fuel rows cols s = Ret l ∧
       (length l ≤ n + 1)%nat ∧ Forall (tour_inv rows cols) l.
Proof.
  induction n as [|n IH]; intros s fuel Hinv Hcount Hfuel;
    (destruct fuel as [|fuel]; [lia|]); simpl;
    destruct (advance_cases _ _ _ Hinv)
      as [[_ Hhalt]|(i & next & B1 & B2 & _ & _ & _ & Hzero & Hs1 & Hs2 & Hadv)].
  - rewrite Hhalt. simpl. exists [s]. simpl. split; [done|]. split; [lia|].
    by apply Forall_singleton.
  - destruct (move_inv _ _ _ _ _ _ _ Hinv Hzero Hs1 Hs2) as (_ & Hdec & _). lia.
  - rewrite Hhalt. simpl. exists [s]. simpl. split; [done|]. split; [lia|].
    by apply Forall_singleton.
  - destruct (move_inv _ _ _ _ _ _ _ Hinv Hzero Hs1 Hs2) as (Hinv' & Hdec & _).
    rewrite Hadv. simpl.
    destruct (IH (Position B2 next.1 next.2) fuel) as (l & -> & Hlen & Hall);
      [done|simpl; lia|lia|].
    simpl. exists (s :: l). split; [done|]. split; [simpl; lia|].
    by apply Forall_cons.
Qed.

(** ** The start position *)

Lemma board_at_replicate (rows cols x y c : Z) :
  0 ≤ x < rows → 0 ≤ y < cols →
  board_at (replicate (Z.to_nat rows) (replicate (Z.to_nat cols) c)) x y = Ret c.
Proof.
  intros Hx Hy. apply board_at_Ret. split; [lia|]. split; [lia|].
  exists (replicate (Z.to_nat cols) c).
  split; apply lookup_replicate_2; lia.
Qed.

Lemma start_position_inv (rows cols startRow startCol : Z) :
  0 ≤ startRow < rows → 0 ≤ startCol < cols →
  ∃ s, start_position rows cols startRow startCol = Ret s ∧
       pos_row s = startRow ∧ pos_col s = startCol ∧
       tour_inv rows cols s ∧
       Z.of_nat (count_cells 0 (pos_board s)) = rows * cols - 1.
Proof.
  intros Hr Hc. unfold start_position.
  set (B0 := replicate (Z.to_nat rows) (replicate (Z.to_nat cols) 0)).
  pose proof (board_at_replicate rows cols startRow startCol 0 Hr Hc) as Hat.
  fold B0 in Hat.
  destruct (board_set_in_range _ _ _ _ 1 Hat) as [B Hset].
  rewrite Hset. simpl. eexists. split; [done|]. simpl.
  pose proof (count_cells_set 0 _ _ _ _ _ _ Hat Hset) as H0.
  pose proof (count_cells_set 1 _ _ _ _ _ _ Hat Hset) as H1.
  unfold B0 in H0, H1.
  rewrite !count_cells_replicate, !count_row_replicate in H0, H1.
  unfold indicator in *. simpl in *.
  split; [done|]. split; [done|]. split; [|nia].
  split; simpl.
  - eapply board_dims_set; [|exact Hset]. split.
    + unfold B0, vec_size. rewrite length_replicate. lia.
    + apply Forall_replicate. unfold vec_size. rewrite length_replicate. lia.
  - apply (cells_set _ B0 _ startRow startCol 1); [|by auto|done].
    apply Forall_replicate, Forall_replicate. by left.
  - by eapply board_at_set_eq.
  - lia.
Qed.

Lemma tour_unfold (fuel : nat) (rows cols startRow startCol : Z)
    (cout : list string) :
  tour fuel rows cols startRow startCol cout =
  s ← start_position rows cols startRow startCol;
  makeMove fuel (pos_board s) rows cols (pos_row s) (pos_col s)
    (World 0 (printBoard (pos_board s) cout)).
Proof.
  unfold tour, start_position.
  destruct (board_set _ startRow startCol 1); done.
Qed.

(** The counter after the moves of a run. *)
Lemma movesMade_foldl (l : list position) :
  ∀ w, is_int (movesMade w) →
  movesMade (foldl record_move w l) = wrap (movesMade w + Z.of_nat (length l)).
Proof.
  induction l as [|s l IH]; intros w Hw; simpl.
  - rewrite Z.add_0_r. by rewrite wrap_id.
  - rewrite IH by apply wrap_is_int. simpl. unfold int_add.
    rewrite wrap_add_wrap. f_equal. lia.
Qed.

(** ** Invariants along a run *)

Lemma advance_Some_inv (rows cols : Z) (s s' : position) :
  tour_inv rows cols s → advance rows cols s = Ret (Some s') →
  tour_inv rows cols s' ∧
  (pos_row s', pos_col s') ∈
    candidates (pos_row s) (pos_col s) rows cols (pos_board s) ∧
  board_at (pos_board s) (pos_row s') (pos_col s') = Ret 0 ∧
  ∀ x y, board_at (pos_board s') x y =
    if decide ((x, y) = (pos_row s', pos_col s')) then Ret 1
    else if decide ((x, y) = (pos_row s, pos_col s)) then Ret 2
    else board_at (pos_board s) x y.
Proof.
  intros Hinv Hadv.
  destruct (advance_cases _ _ _ Hinv)
    as [[_ Hhalt]|(i & next & B1 & B2 & _ & _ & Hlook & Hzero & Hs1 & Hs2 & Hadv')];
    [congruence|].
  rewrite Hadv' in Hadv. injection Hadv as <-. simpl.
  destruct (move_inv _ _ _ _ _ _ _ Hinv Hzero Hs1 Hs2) as (Hinv' & _ & _ & Hframe).
  split; [done|]. split; [|done].
  rewrite <- surjective_pairing. apply list_elem_of_lookup. eauto.
Qed.

Lemma advance_None_inv (rows cols : Z) (s : position) :
  tour_inv rows cols s → advance rows cols s = Ret None →
  candidates (pos_row s) (pos_col s) rows cols (pos_board s) = [].
Proof.
  intros Hinv Hadv.
  destruct (advance_cases _ _ _ Hinv)
    as [[Hnil _]|(i & next & B1 & B2 & _ & _ & _ & _ & _ & _ & Hadv')];
    [done|congruence].
Qed.

Lemma run_inv (rows cols : Z) (l : list position) :
  is_run rows cols l → ∀ s, head l = Some s → tour_inv rows cols s →
  Forall (tour_inv rows cols) l.
Proof.
  induction 1 as [s0 Hs|s0 s1 l Hs Hrun IH]; intros s [= <-] Hinv.
  - by apply Forall_singleton.
  - apply Forall_cons. split; [done|].
    apply (IH s1); [done|]. by apply (advance_Some_inv _ _ _ _ Hinv Hs).
Qed.

(** A cell that holds 2 holds 2 in every later frame. *)
Lemma run_visited_head (rows cols : Z) (l : list position) :
  is_run rows cols l → ∀ s, head l = Some s → tour_inv rows cols s →
  ∀ s' x y, s' ∈ l → board_at (pos_board s) x y = Ret 2 →
  board_at (pos_board s') x y = Ret 2.
Proof.
  induction 1 as [s0 Hs|s0 s1 l Hs Hrun IH]; intros s [= <-] Hinv s' x y Hin Hv.
  - apply list_elem_of_singleton in Hin as ->. done.
  - apply elem_of_cons in Hin as [->|Hin]; [done|].
    destruct (advance_Some_inv _ _ _ _ Hinv Hs) as (Hinv1 & _ & Hzero & Hframe).
    apply (IH s1); [done..|].
    rewrite Hframe.
    destruct (decide ((x, y) = (pos_row s1, pos_col s1))) as [[= -> ->]|_];
      [congruence|].
    destruct (decide ((x, y) = (pos_row s0, pos_col s0))); done.
Qed.

(** The square the knight leaves holds 2 in every later frame. *)
Lemma run_left_visited (rows cols : Z) (s : position) (l : list position) :
  is_run rows cols (s :: l) → tour_inv rows cols s →
  ∀ s', s' ∈ l → board_at (pos_board s') (pos_row s) (pos_col s) = Ret 2.
Proof.
  intros Hrun Hinv s' Hin.
  inversion Hrun as [s0 Hs|s0 s1 l' Hs Hrun' [Heq1 Heq2]]; subst.
  - by apply elem_of_nil in Hin.
  - destruct (advance_Some_inv _ _ _ _ Hinv Hs) as (Hinv1 & Hcand & _ & Hframe).
    apply (run_visited_head _ _ _ Hrun' s1); [done..|].
    rewrite Hframe.
    destruct (decide (_ = (pos_row s1, pos_col s1))) as [Heq|_].
    + exfalso. by apply (candidates_ne_source _ _ _ _ _ _ Hcand).
    + by rewrite decide_True.
Qed.

Lemma run_visited_mono (rows cols : Z) (l : list position) :
  is_run rows cols l → Forall (tour_inv rows cols) l →
  ∀ (i j : nat) si sj x y, (i ≤ j)%nat →
    l !! i = Some si → l !! j = Some sj →
    board_at (pos_board si) x y = Ret 2 → board_at (pos_board sj) x y = Ret 2.
Proof.
  induction 1 as [s0 Hs|s0 s1 l Hs Hrun IH]; intros Hall i j si sj x y Hij Hi Hj Hv.
  - destruct i, j; simpl in *; try done. congruence.
  - apply Forall_cons in Hall as [Hinv0 Hall].
    destruct i as [|i].
    + injection Hi as <-.
      apply (run_visited_head rows cols (s0 :: s1 :: l)
               (run_step _ _ _ _ _ Hs Hrun) s0); [done..| |done].
      apply list_elem_of_lookup. eauto.
    + destruct j as [|j]; [lia|]. simpl in Hi, Hj.
      apply (IH Hall i j si sj); [lia|done..].
Qed.

(** The knight never stands twice on the same square. *)
Lemma run_squares_NoDup (rows cols : Z) (l : list position) :
  is_run rows cols l → Forall (tour_inv rows cols) l →
  NoDup (map (λ s, (pos_row s, pos_col s)) l).
Proof.
  induction 1 as [s0 Hs|s0 s1 l Hs Hrun IH]; intros Hall.
  - apply NoDup_singleton.
  - pose proof Hall as [Hinv0 Hall']%Forall_cons.
    change (map _ (s0 :: s1 :: l)) with
      ((pos_row s0, pos_col s0) :: map (λ s, (pos_row s, pos_col s)) (s1 :: l)).
    apply NoDup_cons. split; [|by apply IH].
    rewrite list_elem_of_In, in_map_iff. intros (s' & [= Hr Hc] & Hin).
    apply list_elem_of_In in Hin.
    pose proof (run_left_visited _ _ _ _ (run_step _ _ _ _ _ Hs Hrun) Hinv0 s' Hin) as H2.
    pose proof (proj1 (Forall_forall _ _) Hall' s' Hin) as [_ _ Hk _].
    rewrite <- Hr, <- Hc in H2. congruence.
Qed.

Lemma is_run_last (rows cols : Z) (l : list position) :
  is_run rows cols l → ∃ sf, last l = Some sf ∧ advance rows cols sf = Ret None.
Proof.
  induction 1 as [s0 Hs|s0 s1 l Hs Hrun (sf & Hlast & Hsf)].
  - by exists s0.
  - exists sf. split; [|done]. by rewrite last_cons_cons.
Qed.

(** ** The console along a run *)

Lemma console_foldl (l : list position) :
  ∀ w, console (foldl record_move w l) =
       foldl (λ c s, printBoard (pos_board s) c) (console w) l.
Proof. induction l as [|s l IH]; intros w; simpl; [done|]. by rewrite IH. Qed.

Lemma printBoard_app (Board : board) (cout : list string) :
  printBoard Board cout = cout ++ printBoard Board [].
Proof. done. Qed.

(** The displays of a list of frames come after what the console held. *)
Lemma print_foldl_app (l : list position) :
  ∀ cout, foldl (λ c s, printBoard (pos_board s) c) cout l
          = cout ++ foldl (λ c s, printBoard (pos_board s) c) [] l.
Proof.
  induction l as [|s l IH]; intros cout; simpl.
  - by rewrite app_nil_r.
  - rewrite IH, (IH (printBoard (pos_board s) [])).
    rewrite (printBoard_app _ cout). by rewrite <- app_assoc.
Qed.

(** The last display of a list of frames is that of its last frame. *)
Lemma print_foldl_last (l : list position) (sf : position) (cout : list string) :
  last l = Some sf →
  ∃ pre, foldl (λ c s, printBoard (pos_board s) c) cout l
         = printBoard (pos_board sf) pre.
Proof.
  intros Hlast. destruct l as [|s l] using rev_ind; [done|].
  rewrite last_snoc in Hlast. injection Hlast as ->.
  rewrite foldl_app. simpl. eauto.
Qed.

Lemma is_run_next (rows cols : Z) (l : list position) :
  is_run rows cols l → ∀ (i : nat) s s',
  l !! i = Some s → advance rows cols s = Ret (Some s') →
  l !! Datatypes.S i = Some s'.
Proof.
  induction 1 as [s0 Hs|s0 s1 l Hs Hrun IH]; intros i s s' Hi Hadv.
  - destruct i; simpl in Hi; [|done]. injection Hi as <-. congruence.
  - destruct i as [|i]; simpl in Hi.
    + injection Hi as <-. simpl. congruence.
    + by apply (IH i s).
Qed.

(** ** The innermost frame *)

Lemma makeMove_final_unfold (fuel : nat) (Board : board)
    (boardX boardY knightRow knightCol : Z) (w : world) :
  makeMove_final (Datatypes.S fuel) Board boardX boardY knightRow knightCol w =
  r ← advance boardX boardY (Position Board knightRow knightCol);
  match r with
  | Some s' =>
      makeMove_final fuel (pos_board s') boardX boardY (pos_row s') (pos_col s')
        (record_move w s')
  | None => Ret (w, Position Board knightRow knightCol)
  end.
Proof.
  unfold advance. simpl.
  destruct (findMovesFromSquare knightRow knightCol boardX boardY Board)
    as [array| |]; simpl; [|done..].
  destruct (decide (array ≠ [])); [|done].
  destruct (for_each _ array) as [sizes| |]; simpl; [|done..].
  destruct (findMinimumIndex sizes) as [index| |]; simpl; [|done..].
  destruct (vec_at array index) as [nextMove| |]; simpl; [|done..].
  destruct (board_set Board knightRow knightCol 2) as [Board1| |]; simpl; [|done..].
  destruct (board_set Board1 nextMove.1 nextMove.2 1) as [Board2| |]; simpl; done.
Qed.

(** The world that [makeMove_final] returns is the one of [makeMove]. *)
Lemma makeMove_final_world (fuel : nat) (boardX boardY : Z) :
  ∀ (Board : board) (knightRow knightCol : Z) (w : world),
  makeMove fuel Board boardX boardY knightRow knightCol w =
  r ← makeMove_final fuel Board boardX boardY knightRow knightCol w; Ret (r.1).
Proof.
  induction fuel as [|fuel IH]; intros Board knightRow knightCol w; [done|].
  rewrite makeMove_unfold, makeMove_final_unfold.
  destruct (advance boardX boardY (Position Board knightRow knightCol))
    as [[s'|]| |]; simpl; [apply IH|done..].
Qed.

(** [makeMove_final] ends on the last frame of [positions]. *)
Lemma makeMove_final_positions (fuel : nat) (boardX boardY : Z) :
  ∀ (s : position) (w : world) (l : list position),
  positions fuel boardX boardY s = Ret l →
  ∃ sf, last l = Some sf ∧
    makeMove_final fuel (pos_board s) boardX boardY (pos_row s) (pos_col s) w
    = Ret (foldl record_move w (tail l), sf).
Proof.
  induction fuel as [|fuel IH]; intros s w l Hl; [done|].
  rewrite makeMove_final_unfold. simpl in Hl. destruct s as [B kr kc]. simpl.
  inv_bind Hl. rewrite Hll. simpl. destruct a as [s'|].
  - inv_bind Hlr. injection Hlrr as <-.
    pose proof (positions_head _ _ _ _ _ Hlrl) as [l' ->].
    destruct (IH s' (record_move w s') _ Hlrl) as (sf & Hlast & Hfin).
    exists sf. split; [by rewrite last_cons_cons|]. by rewrite Hfin.
  - injection Hlr as <-. by exists (Position B kr kc).
Qed.

(** * The claims *)

(** ** Move generator *)

(** C3. Whatever the source square, the bounds and the board, every
    position that [findMovesFromSquare] returns lies in
    [0, boardX) x [0, boardY) and its cell does not hold 2; on a grid of
    the announced size the generator returns for every source (it never
    faults), and the empty sequence is one of its results. *)
Theorem findMovesFromSquare_sound :
  ∀ (x y boardX boardY : Z) (Board : board),
    (∀ l, findMovesFromSquare x y boardX boardY Board = Ret l →
       ∀ p, p ∈ l →
         (0 ≤ p.1 < boardX ∧ 0 ≤ p.2 < boardY) ∧
         ∃ c, board_at Board p.1 p.2 = Ret c ∧ c ≠ 2) ∧
    (board_dims Board boardX boardY →
       ∃ l, findMovesFromSquare x y boardX boardY Board = Ret l) ∧
    findMovesFromSquare 0 0 1 1 [[1]] = Ret [].
Proof.
  intros x y boardX boardY Board. split; [|split].
  - intros l Hl p Hp.
    apply findMovesFromSquare_candidates in Hl as ->.
    apply elem_of_candidates in Hp as [Hlegal _].
    by apply legal_spec.
  - intros Hdims. eexists. by apply findMovesFromSquare_total.
  - reflexivity.
Qed.

Lemma findMovesFromSquare_sound_witness :
  (0 ≤ (1, 2).1 < 3 ∧ 0 ≤ (1, 2).2 < 3) ∧
  ∃ c, board_at [[1; 0; 0]; [0; 0; 0]; [0; 0; 0]] (1, 2).1 (1, 2).2 = Ret c ∧ c ≠ 2.
Proof.
  apply (proj1 (findMovesFromSquare_sound 0 0 3 3
                  [[1; 0; 0]; [0; 0; 0]; [0; 0; 0]]) [(2, 1); (1, 2)]).
  - reflexivity.
  - apply list_elem_of_further, list_elem_of_here.
Defined.

(** C6. The result of [findMovesFromSquare] is the list of the eight
    offsets (2,1), (1,2), (-1,2), (-2,1), (-2,-1), (-1,-2), (1,-2), (2,-1)
    applied to the source, in that order, from which the squares off the
    board or holding 2 are removed; and every square returned is the
    source moved by one of the eight offsets, as soon as the additions do
    not overflow [int]: when the source is two away from the ends of
    [int], or when it is any [int] and the bounds are below [INT_MAX]. *)
Theorem findMovesFromSquare_offset_order :
  ∀ (x y boardX boardY : Z) (Board : board) (l : list (Z * Z)),
    findMovesFromSquare x y boardX boardY Board = Ret l →
    l = filter (λ p, legal boardX boardY Board p = true)
          (map (λ d : Z * Z, (int_add x d.1, int_add y d.2))
             [(2, 1); (1, 2); (-1, 2); (-2, 1); (-2, -1); (-1, -2); (1, -2); (2, -1)]) ∧
    (INT_MIN + 2 ≤ x ≤ INT_MAX - 2 → INT_MIN + 2 ≤ y ≤ INT_MAX - 2 →
     ∀ p, p ∈ l → ∃ d, d ∈ offsets ∧ p = (x + d.1, y + d.2)) ∧
    (is_int x → is_int y → boardX < INT_MAX → boardY < INT_MAX →
     ∀ p, p ∈ l → ∃ d, d ∈ offsets ∧ p = (x + d.1, y + d.2)).
Proof.
  intros x y boardX boardY Board l Hl.
  apply findMovesFromSquare_candidates in Hl as ->. split; [done|]. split.
  - intros Hx Hy p [_ (d & Hd & ->)]%elem_of_candidates.
    exists d. split; [done|].
    pose proof (offsets_small d Hd) as [Hd1 Hd2].
    unfold int_add. rewrite !wrap_id; [done|unfold is_int; lia..].
  - intros Hx Hy HbX HbY p [Hlegal (d & Hd & ->)]%elem_of_candidates.
    exists d. split; [done|].
    pose proof (offsets_small d Hd) as [Hd1 Hd2].
    apply legal_spec in Hlegal as [[Hp1 Hp2] _]. simpl in Hp1, Hp2.
    unfold int_add in *.
    destruct (wrap_congr (x + d.1)) as [k1 Hk1].
    destruct (wrap_congr (y + d.2)) as [k2 Hk2].
    unfold is_int, INT_MIN, INT_MAX in *.
    assert (k1 = 0) as -> by lia. assert (k2 = 0) as -> by lia.
    f_equal; lia.
Qed.

Lemma findMovesFromSquare_offset_order_witness :
  [(4, 3); (3, 4); (0, 3); (0, 1); (1, 0); (3, 0)] =
    filter (λ p, legal 5 5 [[0;0;0;0;0]; [0;0;0;0;2]; [0;0;1;0;0]; [0;0;0;0;0]; [0;2;0;0;0]] p = true)
      (map (λ d : Z * Z, (int_add 2 d.1, int_add 2 d.2))
         [(2, 1); (1, 2); (-1, 2); (-2, 1); (-2, -1); (-1, -2); (1, -2); (2, -1)]) ∧
  (INT_MIN + 2 ≤ 2 ≤ INT_MAX - 2 → INT_MIN + 2 ≤ 2 ≤ INT_MAX - 2 →
   ∀ p, p ∈ [(4, 3); (3, 4); (0, 3); (0, 1); (1, 0); (3, 0)] →
     ∃ d, d ∈ offsets ∧ p = (2 + d.1, 2 + d.2)) ∧
  (is_int 2 → is_int 2 → 5 < INT_MAX → 5 < INT_MAX →
   ∀ p, p ∈ [(4, 3); (3, 4); (0, 3); (0, 1); (1, 0); (3, 0)] →
     ∃ d, d ∈ offsets ∧ p = (2 + d.1, 2 + d.2)).
Proof.
  apply (findMovesFromSquare_offset_order 2 2 5 5
           [[0;0;0;0;0]; [0;0;0;0;2]; [0;0;1;0;0]; [0;0;0;0;0]; [0;2;0;0;0]]).
  reflexivity.
Defined.

(** ** Minimum scan and selection *)

Lemma for_each_length {A B : Type} (f : A → result B) (v : list A) :
  ∀ bs, for_each f v = Ret bs → length bs = length v.
Proof.
  induction v as [|p v IH]; intros bs H; simpl in H.
  - by injection H as <-.
  - inv_bind H. inv_bind Hr. injection Hrr as <-. simpl. f_equal. by apply IH.
Qed.

(** C10. [findMinimumIndex] reads element 0 first, which is out of range
    for the empty vector; for a non-empty vector it returns an index of
    the vector.  [makeMove] returns without building the scores when
    there is no candidate, and otherwise the scores are as many as the
    candidates, so the scan returns and its index selects a candidate. *)
Theorem findMinimumIndex_in_bounds :
  findMinimumIndex [] = Fault ∧
  (∀ vec, vec ≠ [] →
     ∃ i, findMinimumIndex vec = Ret i ∧ 0 ≤ i < vec_size vec) ∧
  (∀ fuel Board boardX boardY knightRow knightCol w,
     findMovesFromSquare knightRow knightCol boardX boardY Board = Ret [] →
     makeMove (Datatypes.S fuel) Board boardX boardY knightRow knightCol w = Ret w) ∧
  (∀ Board boardX boardY knightRow knightCol array sizes,
     findMovesFromSquare knightRow knightCol boardX boardY Board = Ret array →
     array ≠ [] →
     for_each
       (λ p : Z * Z,
          l ← findMovesFromSquare p.1 p.2 boardX boardY Board;
          Ret (wrap (vec_size l)))
       array = Ret sizes →
     ∃ i nextMove,
       findMinimumIndex sizes = Ret i ∧ 0 ≤ i < vec_size array ∧
       vec_at array i = Ret nextMove).
Proof.
  split; [reflexivity|]. split; [|split].
  - intros vec Hne.
    destruct (findMinimumIndex_spec vec Hne) as (i & Hi & Hrange & _). eauto.
  - intros fuel Board boardX boardY knightRow knightCol w Hnil.
    simpl. rewrite Hnil. done.
  - intros Board boardX boardY knightRow knightCol array sizes _ Hne Hsizes.
    apply for_each_length in Hsizes.
    destruct (findMinimumIndex_spec sizes) as (i & Hi & Hrange & _).
    { intros ->. by destruct array. }
    unfold vec_size in Hrange. rewrite Hsizes in Hrange.
    destruct (vec_at_in_range array i Hrange) as [next Hnext].
    by exists i, next.
Qed.

Lemma findMinimumIndex_in_bounds_witness :
  ∃ i, findMinimumIndex [3; 2; 5; 2] = Ret i ∧ 0 ≤ i < vec_size [3; 2; 5; 2].
Proof.
  apply (proj1 (proj2 findMinimumIndex_in_bounds) [3; 2; 5; 2]). done.
Defined.

(** C1. In every frame of a run from a start square of the board whose
    candidate vector is not empty, [makeMove] moves the knight to a
    candidate [next] of which the number of moves that
    [findMovesFromSquare] returns, on the board as it is before the move,
    is at most that of every candidate and less than that of every
    candidate before it in the vector.  The choice shows in what
    [makeMove] does: the next frame of the run is the board with the
    knight on [next], and, given more frames than there are cells holding
    0, [makeMove] returns after displaying that board first. *)
Theorem makeMove_selects_first_minimum :
  ∀ (rows cols startRow startCol : Z) (fuel : nat) (s0 : position)
    (l : list position) (i : nat) (s : position) (array : list (Z * Z)),
    0 ≤ startRow < rows → 0 ≤ startCol < cols →
    start_position rows cols startRow startCol = Ret s0 →
    positions fuel rows cols s0 = Ret l →
    l !! i = Some s →
    findMovesFromSquare (pos_row s) (pos_col s) rows cols (pos_board s) = Ret array →
    array ≠ [] →
    ∃ (k : nat) (next : Z * Z) (ln : list (Z * Z)) (Board1 Board2 : board),
      array !! k = Some next ∧
      findMovesFromSquare next.1 next.2 rows cols (pos_board s) = Ret ln ∧
      (∀ (j : nat) (c : Z * Z), array !! j = Some c →
         ∃ lc, findMovesFromSquare c.1 c.2 rows cols (pos_board s) = Ret lc ∧
               (length ln ≤ length lc)%nat ∧
               ((j < k)%nat → (length ln < length lc)%nat)) ∧
      board_set (pos_board s) (pos_row s) (pos_col s) 2 = Ret Board1 ∧
      board_set Board1 next.1 next.2 1 = Ret Board2 ∧
      board_at Board2 next.1 next.2 = Ret 1 ∧
      l !! Datatypes.S i = Some (Position Board2 next.1 next.2) ∧
      (∀ fuel' w,
         makeMove (Datatypes.S fuel') (pos_board s) rows cols (pos_row s) (pos_col s) w =
         makeMove fuel' Board2 rows cols next.1 next.2
           (World (int_add (movesMade w) 1) (printBoard Board2 (console w)))) ∧
      (∀ fuel' w, (count_cells 0 (pos_board s) < fuel')%nat →
         ∃ w' rest,
           makeMove fuel' (pos_board s) rows cols (pos_row s) (pos_col s) w = Ret w' ∧
           console w' = printBoard Board2 (console w) ++ rest).
Proof.
  intros rows cols startRow startCol fuel s0 l i s array
    Hr Hc Hs0 Hl Hi Harr Hne.
  destruct (start_position_inv rows cols startRow startCol Hr Hc)
    as (s0' & Hs0' & _ & _ & Hinv0 & _).
  assert (s0' = s0) as -> by congruence.
  pose proof (positions_is_run _ _ _ _ _ Hl) as Hrun.
  pose proof (positions_head _ _ _ _ _ Hl) as [l' ->].
  pose proof (run_inv _ _ _ Hrun s0 eq_refl Hinv0) as Hall.
  pose proof (Forall_lookup_1 _ _ _ _ Hall Hi) as Hinv.
  pose proof (inv_dims _ _ _ Hinv) as Hdims.
  apply findMovesFromSquare_candidates in Harr as ->.
  destruct (advance_cases _ _ _ Hinv)
    as [[Hnil _]|(i0 & next & B1 & B2 & _ & Hfmi & Hlook & Hzero & Hs1 & Hs2 & Hadv)];
    [done|].
  destruct (findMinimumIndex_spec
              (map (score rows cols (pos_board s))
                 (candidates (pos_row s) (pos_col s) rows cols (pos_board s))))
    as (i' & Hi' & Hrange & m & Hm & Hmin).
  { by destruct (candidates _ _ _ _ _). }
  assert (i' = i0) as -> by congruence.
  assert (m = score rows cols (pos_board s) next) as ->.
  { change (map ?f ?l) with (f <$> l) in Hm.
    rewrite list_lookup_fmap, Hlook in Hm. by injection Hm as <-. }
  exists (Z.to_nat i0), next, (candidates next.1 next.2 rows cols (pos_board s)), B1, B2.
  split; [done|]. split; [by apply findMovesFromSquare_total|].
  split; [|split; [done|split; [done|split; [by apply (board_at_set_eq _ _ _ _ _ Hs2)|]]]].
  { intros j c Hj. exists (candidates c.1 c.2 rows cols (pos_board s)).
    split; [by apply findMovesFromSquare_total|].
    destruct (Hmin j (score rows cols (pos_board s) c)) as [H1 H2].
    { change (map ?f ?l) with (f <$> l). by rewrite list_lookup_fmap, Hj. }
    unfold score, vec_size in *. lia. }
  split; [by apply (is_run_next _ _ _ Hrun i s)|].
  split.
  - intros fuel' w. rewrite makeMove_unfold.
    destruct s as [B kr kc]. simpl in *. by rewrite Hadv.
  - intros fuel' w Hfuel.
    destruct (positions_terminate rows cols _ s fuel' Hinv eq_refl Hfuel)
      as (ls & Hls & _).
    rewrite makeMove_positions, Hls. simpl.
    destruct fuel' as [|f]; [done|]. simpl in Hls. rewrite Hadv in Hls.
    simpl in Hls. inv_bind Hls. injection Hlsr as <-.
    pose proof (positions_head _ _ _ _ _ Hlsl) as [a' ->].
    eexists. eexists. split; [done|].
    simpl. rewrite console_foldl. simpl. apply print_foldl_app.
Qed.

Lemma makeMove_selects_first_minimum_witness :
  ∃ (k : nat) (next : Z * Z) (ln : list (Z * Z)) (Board1 Board2 : board),
    [(2, 1); (1, 2)] !! k = Some next ∧
    findMovesFromSquare next.1 next.2 3 4 (pos_board demo_start) = Ret ln ∧
    (∀ (j : nat) (c : Z * Z), [(2, 1); (1, 2)] !! j = Some c →
       ∃ lc, findMovesFromSquare c.1 c.2 3 4 (pos_board demo_start) = Ret lc ∧
             (length ln ≤ length lc)%nat ∧
             ((j < k)%nat → (length ln < length lc)%nat)) ∧
    board_set (pos_board demo_start) (pos_row demo_start) (pos_col demo_start) 2
      = Ret Board1 ∧
    board_set Board1 next.1 next.2 1 = Ret Board2 ∧
    board_at Board2 next.1 next.2 = Ret 1 ∧
    demo_run !! 1%nat = Some (Position Board2 next.1 next.2) ∧
    (∀ fuel' w,
       makeMove (Datatypes.S fuel') (pos_board demo_start) 3 4
         (pos_row demo_start) (pos_col demo_start) w =
       makeMove fuel' Board2 3 4 next.1 next.2
         (World (int_add (movesMade w) 1) (printBoard Board2 (console w)))) ∧
    (∀ fuel' w, (count_cells 0 (pos_board demo_start) < fuel')%nat →
       ∃ w' rest,
         makeMove fuel' (pos_board demo_start) 3 4
           (pos_row demo_start) (pos_col demo_start) w = Ret w' ∧
         console w' = printBoard Board2 (console w) ++ rest).
Proof.
  apply (makeMove_selects_first_minimum 3 4 0 0 12 demo_start demo_run 0
           demo_start [(2, 1); (1, 2)]).
  - lia.
  - lia.
  - reflexivity.
  - vm_compute. reflexivity.
  - reflexivity.
  - reflexivity.
  - discriminate.
Defined.

(** The candidate chosen from the corner of the 3 x 4 board is the second
    of the vector, (1, 2), whose count is 2 against 3 for (2, 1). *)
Example demo_run_second_frame :
  (λ s, (pos_row s, pos_col s)) <$> demo_run !! 1%nat = Some (1, 2).
Proof. reflexivity. Qed.

(** ** The tour *)

(** C2. For every board and every start square on it, the recursion of
    [makeMove] ends: [rows * cols] frames are enough (and any larger fuel
    gives the same result), and the count of moves it leaves is at most
    [rows * cols - 1]. *)
Theorem tour_terminates_bounded :
  ∀ (rows cols startRow startCol : Z) (cout : list string),
    0 ≤ startRow < rows → 0 ≤ startCol < cols →
    ∃ w, (∀ fuel, (Z.to_nat (rows * cols) ≤ fuel)%nat →
            tour fuel rows cols startRow startCol cout = Ret w) ∧
         movesMade w ≤ rows * cols - 1.
Proof.
  intros rows cols startRow startCol cout Hr Hc.
  destruct (start_position_inv rows cols startRow startCol Hr Hc)
    as (s0 & Hs0 & Hrow & Hcol & Hinv & Hcount).
  destruct (positions_terminate rows cols _ s0 (Z.to_nat (rows * cols)) Hinv eq_refl)
    as (l0 & Hl0 & Hlen & _); [lia|].
  pose proof (positions_head _ _ _ _ _ Hl0) as [l' ->]. simpl in Hlen.
  exists (foldl record_move (World 0 (printBoard (pos_board s0) cout)) l').
  split.
  - intros fuel Hfuel. rewrite tour_unfold, Hs0. simpl.
    rewrite makeMove_positions.
    destruct (positions_terminate rows cols _ s0 fuel Hinv eq_refl)
      as (l & Hl & _); [lia|].
    rewrite Hl. simpl.
    by rewrite (positions_fuel_irrelevant _ _ _ _ _ _ _ Hl Hl0).
  - rewrite movesMade_foldl by (simpl; unfold is_int, INT_MIN, INT_MAX; lia).
    simpl. etransitivity; [apply wrap_le_nonneg; lia|]. lia.
Qed.

Lemma tour_terminates_bounded_witness :
  ∃ w, (∀ fuel, (Z.to_nat (3 * 4) ≤ fuel)%nat → tour fuel 3 4 0 0 [] = Ret w) ∧
       movesMade w ≤ 3 * 4 - 1.
Proof.
  apply (tour_terminates_bounded 3 4 0 0 []); lia.
Defined.

(** Two completed runs of the tour on the same board and start square,
    whatever their fuel and the console before them. *)
Lemma tour_runs_agree :
  ∀ (rows cols startRow startCol : Z) (cout1 cout2 : list string)
    (fuel1 fuel2 : nat) (w1 w2 : world),
    tour fuel1 rows cols startRow startCol cout1 = Ret w1 →
    tour fuel2 rows cols startRow startCol cout2 = Ret w2 →
    movesMade w1 = movesMade w2 ∧
    (∃ shown, console w1 = cout1 ++ shown ∧ console w2 = cout2 ++ shown) ∧
    (cout1 = cout2 → w1 = w2) ∧
    (∃ s0 l, start_position rows cols startRow startCol = Ret s0 ∧
             positions fuel1 rows cols s0 = Ret l ∧
             positions fuel2 rows cols s0 = Ret l ∧
             movesMade w1 = wrap (Z.of_nat (length l) - 1)) ∧
    (∃ msg, report rows cols (movesMade w1) (console w1) = console w1 ++ [msg; endl] ∧
            report rows cols (movesMade w2) (console w2) = console w2 ++ [msg; endl]).
Proof.
  intros rows cols startRow startCol cout1 cout2 fuel1 fuel2 w1 w2 H1 H2.
  rewrite tour_unfold in H1, H2.
  inv_bind H1. inv_bind H2. assert (a0 = a) as -> by congruence.
  rename a into s0.
  rewrite makeMove_positions in H1r, H2r.
  inv_bind H1r. inv_bind H2r.
  pose proof (positions_fuel_irrelevant _ _ _ _ _ _ _ H1rl H2rl) as ->.
  pose proof (positions_head _ _ _ _ _ H2rl) as [l' ->].
  injection H1rr as <-. injection H2rr as <-. simpl tail.
  assert (∀ cout, movesMade (foldl record_move
            (World 0 (printBoard (pos_board s0) cout)) l')
          = wrap (Z.of_nat (length l'))) as Hmoves.
  { intros cout.
    by rewrite movesMade_foldl by (simpl; unfold is_int, INT_MIN, INT_MAX; lia). }
  assert (∀ cout, console (foldl record_move
            (World 0 (printBoard (pos_board s0) cout)) l')
          = cout ++ (printBoard (pos_board s0) []
                     ++ foldl (λ c s, printBoard (pos_board s) c) [] l')) as Hconsole.
  { intros cout. rewrite console_foldl. simpl.
    rewrite print_foldl_app, (printBoard_app _ cout). by rewrite <- app_assoc. }
  split; [by rewrite !Hmoves|].
  split; [eexists; split; apply Hconsole|].
  split; [by intros ->|].
  split.
  - exists s0, (s0 :: l'). split; [done|]. split; [done|]. split; [done|].
    rewrite Hmoves. f_equal. simpl length. lia.
  - rewrite !Hmoves. unfold report.
    destruct (decide (wrap (Z.of_nat (length l')) = int_sub (int_mul rows cols) 1)).
    + by exists msg_completed.
    + by exists msg_no_moves.
Qed.

(** C7. Two completed runs on the same rows, columns and start square go
    through the same sequence of squares and boards, leave the same count
    of moves, display the same boards and lead to the same message,
    whatever fuel each run was given and whatever the console held
    before each.  For the program as a whole: two sessions of [main] in
    which the same sizes and the same start square end up being read,
    however many entries were refused on the way, write the same boards
    and the same message after their prompts, and exit alike. *)
Theorem tour_deterministic :
  (∀ (rows cols startRow startCol : Z) (cout1 cout2 : list string)
     (fuel1 fuel2 : nat) (w1 w2 : world),
     tour fuel1 rows cols startRow startCol cout1 = Ret w1 →
     tour fuel2 rows cols startRow startCol cout2 = Ret w2 →
     movesMade w1 = movesMade w2 ∧
     (∃ shown, console w1 = cout1 ++ shown ∧ console w2 = cout2 ++ shown) ∧
     (cout1 = cout2 → w1 = w2) ∧
     (∃ s0 l, start_position rows cols startRow startCol = Ret s0 ∧
              positions fuel1 rows cols s0 = Ret l ∧
              positions fuel2 rows cols s0 = Ret l ∧
              movesMade w1 = wrap (Z.of_nat (length l) - 1)) ∧
     (∃ msg, report rows cols (movesMade w1) (console w1) = console w1 ++ [msg; endl] ∧
             report rows cols (movesMade w2) (console w2) = console w2 ++ [msg; endl])) ∧
  (∀ (fuel1 fuel2 : nat) (cin1 cin2 : list (option Z)) (boardSize start : Z * Z)
     (rest1 rest1' rest2 rest2' : list (option Z))
     (prompts1 prompts1' prompts2 prompts2' : list string)
     (code1 code2 : Z) (out1 out2 : list string),
     getPairFromUser 3 10 3 10
       "Enter number of rows (between 3-10):"
       "Enter number of columns (between 3-10):" 0 cin1 [banner; endl]
       = Ret (boardSize, rest1, prompts1) →
     getPairFromUser 1 boardSize.1 1 boardSize.2
       "Enter starting row of knight:"
       "Enter starting column of knight:" 1 rest1 prompts1
       = Ret (start, rest1', prompts1') →
     getPairFromUser 3 10 3 10
       "Enter number of rows (between 3-10):"
       "Enter number of columns (between 3-10):" 0 cin2 [banner; endl]
       = Ret (boardSize, rest2, prompts2) →
     getPairFromUser 1 boardSize.1 1 boardSize.2
       "Enter starting row of knight:"
       "Enter starting column of knight:" 1 rest2 prompts2
       = Ret (start, rest2', prompts2') →
     main fuel1 cin1 = Ret (code1, out1) →
     main fuel2 cin2 = Ret (code2, out2) →
     code1 = code2 ∧
     ∃ shown, out1 = prompts1' ++ shown ∧ out2 = prompts2' ++ shown).
Proof.
  split; [apply tour_runs_agree|].
  intros fuel1 fuel2 cin1 cin2 boardSize start rest1 rest1' rest2 rest2'
    prompts1 prompts1' prompts2 prompts2' code1 code2 out1 out2
    Hsz1 Hst1 Hsz2 Hst2 Hm1 Hm2.
  unfold main in Hm1, Hm2.
  rewrite Hsz1 in Hm1. rewrite Hsz2 in Hm2. simpl in Hm1, Hm2.
  rewrite Hst1 in Hm1. rewrite Hst2 in Hm2. simpl in Hm1, Hm2.
  inv_bind Hm1. inv_bind Hm2. rename a into w1. rename a0 into w2.
  injection Hm1r as <- <-. injection Hm2r as <- <-.
  split; [done|].
  destruct (tour_runs_agree _ _ _ _ _ _ _ _ _ _ Hm1l Hm2l)
    as (_ & (shown & Hc1 & Hc2) & _ & _ & (msg & Hr1 & Hr2)).
  exists (shown ++ [msg; endl]).
  rewrite Hr1, Hr2, Hc1, Hc2. by rewrite <- !app_assoc.
Qed.

Lemma tour_deterministic_witness :
  movesMade (demo_world 12 []) = movesMade (demo_world 20 ["x"%string]) ∧
  (∃ shown, console (demo_world 12 []) = [] ++ shown ∧
            console (demo_world 20 ["x"%string]) = ["x"%string] ++ shown) ∧
  ([] = ["x"%string] → demo_world 12 [] = demo_world 20 ["x"%string]) ∧
  (∃ s0 l, start_position 3 4 0 0 = Ret s0 ∧
           positions 12 3 4 s0 = Ret l ∧
           positions 20 3 4 s0 = Ret l ∧
           movesMade (demo_world 12 []) = wrap (Z.of_nat (length l) - 1)) ∧
  (∃ msg, report 3 4 (movesMade (demo_world 12 [])) (console (demo_world 12 []))
            = console (demo_world 12 []) ++ [msg; endl] ∧
          report 3 4 (movesMade (demo_world 20 ["x"%string]))
            (console (demo_world 20 ["x"%string]))
            = console (demo_world 20 ["x"%string]) ++ [msg; endl]).
Proof.
  apply (proj1 tour_deterministic 3 4 0 0 [] ["x"%string] 12%nat 20%nat).
  - vm_compute. reflexivity.
  - vm_compute. reflexivity.
Defined.

(** The two runs of the witness make eleven moves. *)
Example demo_world_moves :
  movesMade (demo_world 12 []) = 11 ∧ length demo_run = 12%nat.
Proof. split; vm_compute; reflexivity. Qed.

(** C4. Along a run from a start square of the board, every frame has
    exactly one cell holding 1, and it is the knight's; a cell that holds
    2 in a frame holds 2 in every later frame; and the knight never stands
    twice on a square, so no square is marked 2 twice. *)
Theorem tour_board_invariant :
  ∀ (rows cols startRow startCol : Z) (fuel : nat)
    (s0 : position) (l : list position),
    0 ≤ startRow < rows → 0 ≤ startCol < cols →
    start_position rows cols startRow startCol = Ret s0 →
    positions fuel rows cols s0 = Ret l →
    (∀ s, s ∈ l →
       count_cells 1 (pos_board s) = 1%nat ∧
       board_at (pos_board s) (pos_row s) (pos_col s) = Ret 1) ∧
    (∀ (i j : nat) si sj x y, (i ≤ j)%nat →
       l !! i = Some si → l !! j = Some sj →
       board_at (pos_board si) x y = Ret 2 →
       board_at (pos_board sj) x y = Ret 2) ∧
    NoDup (map (λ s, (pos_row s, pos_col s)) l).
Proof.
  intros rows cols startRow startCol fuel s0 l Hr Hc Hs0 Hl.
  destruct (start_position_inv rows cols startRow startCol Hr Hc)
    as (s0' & Hs0' & _ & _ & Hinv & _).
  assert (s0' = s0) as -> by congruence.
  pose proof (positions_head _ _ _ _ _ Hl) as [l' ->].
  pose proof (positions_is_run _ _ _ _ _ Hl) as Hrun.
  pose proof (run_inv _ _ _ Hrun s0 eq_refl Hinv) as Hall.
  split; [|split].
  - intros s Hs. by destruct (proj1 (Forall_forall _ _) Hall s Hs).
  - by apply (run_visited_mono rows cols).
  - by apply (run_squares_NoDup rows cols).
Qed.

(** C9. The run from a start square of the board ends in a frame without
    candidate.  In that innermost frame, as [makeMove_final] returns it,
    the knight's cell holds 1 (it is not turned into 2) and is the only
    cell holding 1; the frame returns at once with the board, the counter
    and the console as it received them; and the board it ends on is the
    board of the last display, so no cell changes after the last recorded
    move. *)
Theorem halt_leaves_knight_current :
  ∀ (rows cols startRow startCol : Z) (s0 : position) (cout : list string),
    0 ≤ startRow < rows → 0 ≤ startCol < cols →
    start_position rows cols startRow startCol = Ret s0 →
    ∃ l sf w,
      positions (Z.to_nat (rows * cols)) rows cols s0 = Ret l ∧
      last l = Some sf ∧
      (∀ fuel, (Z.to_nat (rows * cols) ≤ fuel)%nat →
         makeMove_final fuel (pos_board s0) rows cols startRow startCol
           (World 0 (printBoard (pos_board s0) cout)) = Ret (w, sf) ∧
         tour fuel rows cols startRow startCol cout = Ret w) ∧
      findMovesFromSquare (pos_row sf) (pos_col sf) rows cols (pos_board sf) = Ret [] ∧
      board_at (pos_board sf) (pos_row sf) (pos_col sf) = Ret 1 ∧
      count_cells 1 (pos_board sf) = 1%nat ∧
      advance rows cols sf = Ret None ∧
      (∀ fuel w0,
         makeMove (Datatypes.S fuel) (pos_board sf) rows cols
           (pos_row sf) (pos_col sf) w0 = Ret w0) ∧
      (∀ fuel w0,
         makeMove_final (Datatypes.S fuel) (pos_board sf) rows cols
           (pos_row sf) (pos_col sf) w0 = Ret (w0, sf)) ∧
      (∃ pre, console w = printBoard (pos_board sf) pre).
Proof.
  intros rows cols startRow startCol s0 cout Hr Hc Hs0.
  destruct (start_position_inv rows cols startRow startCol Hr Hc)
    as (s0' & Hs0' & Hrow & Hcol & Hinv & Hcount).
  assert (s0' = s0) as -> by congruence.
  destruct (positions_terminate rows cols _ s0 (Z.to_nat (rows * cols)) Hinv eq_refl)
    as (l & Hl & _ & Hall); [lia|].
  pose proof (positions_is_run _ _ _ _ _ Hl) as Hrun.
  destruct (is_run_last _ _ _ Hrun) as (sf & Hlast & Hhalt).
  assert (tour_inv rows cols sf) as Hinvf.
  { apply (proj1 (Forall_forall _ _) Hall). by apply last_Some_elem_of. }
  pose proof (advance_None_inv _ _ _ Hinvf Hhalt) as Hnil.
  assert (findMovesFromSquare (pos_row sf) (pos_col sf) rows cols (pos_board sf) = Ret [])
    as Hfind.
  { rewrite findMovesFromSquare_total by apply Hinvf. by rewrite Hnil. }
  pose proof (positions_head _ _ _ _ _ Hl) as [l' Heq].
  exists l, sf,
    (foldl record_move (World 0 (printBoard (pos_board s0) cout)) (tail l)).
  split; [done|]. split; [done|]. split.
  { intros fuel Hfuel.
    destruct (positions_terminate rows cols _ s0 fuel Hinv eq_refl)
      as (l2 & Hl2 & _); [lia|].
    pose proof (positions_fuel_irrelevant _ _ _ _ _ _ _ Hl2 Hl) as ->.
    destruct (makeMove_final_positions fuel rows cols s0
                (World 0 (printBoard (pos_board s0) cout)) l Hl2)
      as (sf' & Hlast' & Hfin).
    assert (sf' = sf) as -> by congruence.
    rewrite Hrow, Hcol in Hfin. split; [done|].
    rewrite tour_unfold, Hs0. simpl. rewrite makeMove_final_world.
    rewrite Hrow, Hcol, Hfin. done. }
  split; [done|]. split; [apply Hinvf|]. split; [apply Hinvf|]. split; [done|].
  split; [|split].
  - intros fuel w0. simpl. by rewrite Hfind.
  - intros fuel w0. simpl. rewrite Hfind. simpl. by destruct sf.
  - rewrite console_foldl. simpl.
    subst l. simpl tail.
    destruct l' as [|s1 l'] using rev_ind.
    + simpl in *. injection Hlast as <-. by exists cout.
    + rewrite last_cons, last_snoc in Hlast. injection Hlast as ->.
      rewrite foldl_app. simpl. eauto.
Qed.

Lemma tour_board_invariant_witness :
  (∀ s, s ∈ [Position [[1;0;0]; [0;0;0]] 0 0; Position [[2;0;0]; [0;0;1]] 1 2] →
     count_cells 1 (pos_board s) = 1%nat ∧
     board_at (pos_board s) (pos_row s) (pos_col s) = Ret 1) ∧
  (∀ (i j : nat) si sj x y, (i ≤ j)%nat →
     [Position [[1;0;0]; [0;0;0]] 0 0; Position [[2;0;0]; [0;0;1]] 1 2] !! i = Some si →
     [Position [[1;0;0]; [0;0;0]] 0 0; Position [[2;0;0]; [0;0;1]] 1 2] !! j = Some sj →
     board_at (pos_board si) x y = Ret 2 →
     board_at (pos_board sj) x y = Ret 2) ∧
  NoDup (map (λ s, (pos_row s, pos_col s))
           [Position [[1;0;0]; [0;0;0]] 0 0; Position [[2;0;0]; [0;0;1]] 1 2]).
Proof.
  apply (tour_board_invariant 2 3 0 0 6 (Position [[1;0;0]; [0;0;0]] 0 0)).
  - lia.
  - lia.
  - reflexivity.
  - reflexivity.
Defined.

Lemma halt_leaves_knight_current_witness :
  ∃ l sf w,
    positions (Z.to_nat (2 * 3)) 2 3 (Position [[1;0;0]; [0;0;0]] 0 0) = Ret l ∧
    last l = Some sf ∧
    (∀ fuel, (Z.to_nat (2 * 3) ≤ fuel)%nat →
       makeMove_final fuel (pos_board (Position [[1;0;0]; [0;0;0]] 0 0)) 2 3 0 0
         (World 0 (printBoard (pos_board (Position [[1;0;0]; [0;0;0]] 0 0)) []))
         = Ret (w, sf) ∧
       tour fuel 2 3 0 0 [] = Ret w) ∧
    findMovesFromSquare (pos_row sf) (pos_col sf) 2 3 (pos_board sf) = Ret [] ∧
    board_at (pos_board sf) (pos_row sf) (pos_col sf) = Ret 1 ∧
    count_cells 1 (pos_board sf) = 1%nat ∧
    advance 2 3 sf = Ret None ∧
    (∀ fuel w0,
       makeMove (Datatypes.S fuel) (pos_board sf) 2 3 (pos_row sf) (pos_col sf) w0
         = Ret w0) ∧
    (∀ fuel w0,
       makeMove_final (Datatypes.S fuel) (pos_board sf) 2 3
         (pos_row sf) (pos_col sf) w0 = Ret (w0, sf)) ∧
    (∃ pre, console w = printBoard (pos_board sf) pre).
Proof.
  apply (halt_leaves_knight_current 2 3 0 0 (Position [[1;0;0]; [0;0;0]] 0 0) []).
  - lia.
  - lia.
  - reflexivity.
Defined.

(** The innermost frame of the run on the 3 x 4 board: the knight's cell
    holds 1 and every other cell 2. *)
Example demo_final_frame :
  (r ← makeMove_final 12 (pos_board demo_start) 3 4 0 0 (World 0 []); Ret (r.2))
  = Ret (Position [[2; 2; 2; 2]; [1; 2; 2; 2]; [2; 2; 2; 2]] 1 0).
Proof. vm_compute. reflexivity. Qed.

(** ** Console and configuration *)

Lemma inputInteger_Ret (lowerBound upperBound : Z) (text : string)
    (cin : list (option Z)) :
  ∀ (cout : list string) i cin' cout',
  inputInteger lowerBound upperBound text cin cout = Ret (i, cin', cout') →
  lowerBound ≤ i ≤ upperBound ∧
  ∀ P : string → Prop, P text → Forall P cout → Forall P cout'.
Proof.
  induction cin as [|t cin IH]; intros cout i cin' cout' H; simpl in H; [done|].
  assert (∀ P : string → Prop, P text → Forall P cout → Forall P (cout ++ [text]))
    as Hstep.
  { intros P Ht Hc. apply Forall_app. split; [done|]. by apply Forall_singleton. }
  destruct t as [i0|].
  - destruct ((i0 >=? lowerBound) && (i0 <=? upperBound)) eqn:Hb.
    + injection H as <- <- <-. apply andb_prop in Hb as [H1 H2].
      split; [lia|]. done.
    + apply IH in H as [Hi HP]. split; [done|].
      intros P Ht Hc. apply HP; [done|]. by apply Hstep.
  - apply IH in H as [Hi HP]. split; [done|].
    intros P Ht Hc. apply HP; [done|]. by apply Hstep.
Qed.

Lemma getPairFromUser_Ret (lowerBound upperBound lowerBound2 upperBound2 : Z)
    (text text2 : string) (offset : Z) (cin : list (option Z))
    (cout : list string) p cin' cout' :
  getPairFromUser lowerBound upperBound lowerBound2 upperBound2
    text text2 offset cin cout = Ret (p, cin', cout') →
  ∃ i j, lowerBound ≤ i ≤ upperBound ∧ lowerBound2 ≤ j ≤ upperBound2 ∧
    p = (int_sub i offset, int_sub j offset) ∧
    ∀ P : string → Prop, P text → P text2 → Forall P cout → Forall P cout'.
Proof.
  unfold getPairFromUser. intros H. inv_bind H.
  destruct a as [[i cin1] cout1]. inv_bind Hr.
  destruct a as [[j cin2] cout2]. injection Hrr as <- <- <-.
  apply inputInteger_Ret in Hl as [Hi HP1].
  apply inputInteger_Ret in Hrl as [Hj HP2].
  exists i, j. split; [done|]. split; [done|]. split; [done|].
  intros P Ht Ht2 Hc. apply HP2; [done|]. by apply HP1.
Qed.

Lemma printBoard_Forall (P : string → Prop) (Board : board) (cout : list string) :
  P endl → (∀ c, P (glyph c)) → Forall P cout → Forall P (printBoard Board cout).
Proof.
  intros He Hg Hc. unfold printBoard.
  apply Forall_app. split; [done|]. apply Forall_app. split; [|by apply Forall_singleton].
  induction Board as [|row Board IH]; simpl; [done|].
  apply Forall_app. split; [|done].
  apply Forall_app. split; [|by apply Forall_singleton].
  induction row as [|c row IHrow]; simpl; [done|]. by apply Forall_cons.
Qed.

Lemma tour_console (P : string → Prop) (fuel : nat)
    (rows cols startRow startCol : Z) (cout : list string) (w : world) :
  P endl → (∀ c, P (glyph c)) → Forall P cout →
  tour fuel rows cols startRow startCol cout = Ret w → Forall P (console w).
Proof.
  intros He Hg Hc H. rewrite tour_unfold in H. inv_bind H.
  rewrite makeMove_positions in Hr. inv_bind Hr. injection Hrr as <-.
  assert (∀ l w0, Forall P (console w0) →
            Forall P (console (foldl record_move w0 l))) as Hfold.
  { induction l as [|s l IH]; intros w0 Hw0; simpl; [done|].
    apply IH. simpl. by apply printBoard_Forall. }
  apply Hfold. simpl. by apply printBoard_Forall.
Qed.

Lemma glyph_not_message (c : Z) : glyph c ≠ msg_completed ∧ glyph c ≠ msg_no_moves.
Proof. unfold glyph. repeat case_decide; done. Qed.

(** ** Exit reporting *)

(** C5. When [main] returns, its output is what was written up to the
    return of [makeMove], followed by one message and a line end: the
    success message when the count of moves equals [rows * cols - 1] and
    the failure message otherwise; neither message occurs earlier in the
    output, and the exit code is 0. *)
Theorem main_reports_outcome :
  ∀ (fuel : nat) (cin : list (option Z)) (code : Z) (out : list string),
    main fuel cin = Ret (code, out) →
    ∃ (rows cols startRow startCol : Z) (cout0 : list string) (w : world),
      (3 ≤ rows ≤ 10 ∧ 3 ≤ cols ≤ 10) ∧
      (0 ≤ startRow < rows ∧ 0 ≤ startCol < cols) ∧
      tour fuel rows cols startRow startCol cout0 = Ret w ∧
      code = 0 ∧
      out = (console w ++
             [if decide (movesMade w = rows * cols - 1)
              then msg_completed else msg_no_moves; endl]) ∧
      (msg_completed ∉ console w) ∧ (msg_no_moves ∉ console w).
Proof.
  intros fuel cin code out H. unfold main in H.
  inv_bind H. destruct a as [[boardSize cin1] cout1].
  inv_bind Hr. destruct a as [[start cin2] cout2].
  inv_bind Hrr. injection Hrrr as <- <-.
  apply getPairFromUser_Ret in Hl as (rows & cols & Hrows & Hcols & -> & HP1).
  apply getPairFromUser_Ret in Hrl as (i & j & Hi & Hj & -> & HP2).
  simpl in *.
  assert (int_sub rows 0 = rows) as Er.
  { unfold int_sub. rewrite Z.sub_0_r. apply wrap_id. unfold is_int, INT_MIN, INT_MAX. lia. }
  assert (int_sub cols 0 = cols) as Ec.
  { unfold int_sub. rewrite Z.sub_0_r. apply wrap_id. unfold is_int, INT_MIN, INT_MAX. lia. }
  rewrite Er, Ec in *.
  assert (int_sub i 1 = i - 1) as Ei.
  { unfold int_sub. apply wrap_id. unfold is_int, INT_MIN, INT_MAX. lia. }
  assert (int_sub j 1 = j - 1) as Ej.
  { unfold int_sub. apply wrap_id. unfold is_int, INT_MIN, INT_MAX. lia. }
  rewrite Ei, Ej in *.
  exists rows, cols, (i - 1), (j - 1), cout2, a.
  split; [done|]. split; [lia|]. split; [done|]. split; [done|].
  assert (Forall (λ c, c ≠ msg_completed ∧ c ≠ msg_no_moves) (console a)) as Hall.
  { eapply tour_console; [| apply glyph_not_message | | exact Hrrl].
    - by split.
    - apply HP2; [by split..|]. apply HP1; [by split..|].
      apply Forall_cons. split; [by split|]. apply Forall_singleton. by split. }
  split; [|split].
  - unfold report.
    assert (int_sub (int_mul rows cols) 1 = rows * cols - 1) as ->.
    { unfold int_sub, int_mul.
      rewrite (wrap_id (rows * cols)) by (unfold is_int, INT_MIN, INT_MAX; nia).
      apply wrap_id. unfold is_int, INT_MIN, INT_MAX. nia. }
    by destruct (decide (movesMade a = rows * cols - 1)).
  - intros Hin. by destruct (proj1 (Forall_forall _ _) Hall _ Hin).
  - intros Hin. by destruct (proj1 (Forall_forall _ _) Hall _ Hin).
Qed.

Lemma main_reports_outcome_witness :
  ∃ (rows cols startRow startCol : Z) (cout0 : list string) (w : world),
    (3 ≤ rows ≤ 10 ∧ 3 ≤ cols ≤ 10) ∧
    (0 ≤ startRow < rows ∧ 0 ≤ startCol < cols) ∧
    tour 12 rows cols startRow startCol cout0 = Ret w ∧
    0 = 0 ∧
    demo_output = (console w ++
           [if decide (movesMade w = rows * cols - 1)
            then msg_completed else msg_no_moves; endl]) ∧
    (msg_completed ∉ console w) ∧ (msg_no_moves ∉ console w).
Proof.
  apply (main_reports_outcome 12 demo_input 0 demo_output).
  reflexivity.
Defined.

(** C8. On the 1 x 1 board started on its only cell, [makeMove] returns
    from its first frame with the count of moves at 0, and the exit test
    takes that for a completed tour, since 0 = 1 * 1 - 1; the sizes that
    [main] asks for lie between 3 and 10, so [main] never runs on this
    board. *)
Theorem one_by_one_board :
  (∀ fuel cout,
     tour (Datatypes.S fuel) 1 1 0 0 cout = Ret (World 0 (printBoard [[1]] cout))) ∧
  (∀ cout, report 1 1 0 cout = cout ++ [msg_completed; endl]) ∧
  (∀ text text2 cin cout boardSize cin' cout',
     getPairFromUser 3 10 3 10 text text2 0 cin cout = Ret (boardSize, cin', cout') →
     (3 ≤ boardSize.1 ≤ 10 ∧ 3 ≤ boardSize.2 ≤ 10) ∧ boardSize ≠ (1, 1)).
Proof.
  split; [|split].
  - intros fuel cout. reflexivity.
  - intros cout. reflexivity.
  - intros text text2 cin cout boardSize cin' cout' H.
    apply getPairFromUser_Ret in H as (i & j & Hi & Hj & -> & _).
    unfold int_sub. rewrite !Z.sub_0_r.
    rewrite !wrap_id by (unfold is_int, INT_MIN, INT_MAX; lia).
    simpl. split; [done|]. intros [= -> ->]. lia.
Qed.

Lemma one_by_one_board_witness :
  (3 ≤ (4, 7).1 ≤ 10 ∧ 3 ≤ (4, 7).2 ≤ 10) ∧ (4, 7) ≠ (1, 1).
Proof.
  apply (proj2 (proj2 one_by_one_board) "rows:"%string "columns:"%string
           [Some 1; None; Some 4; Some 11; Some 7; Some 2] []
           (4, 7) [Some 2] ["rows:"; "rows:"; "rows:"; "columns:"; "columns:"]%string).
  reflexivity.
Defined.

(** ** The scenarios of the specification *)

Example tour_3x4_corner :
  (w ← tour 12 3 4 0 0 []; Ret (movesMade w)) = Ret 11.
Proof. vm_compute. reflexivity. Qed.

Example tour_3x3_centre :
  (w ← tour 9 3 3 1 1 []; Ret (movesMade w)) = Ret 0.
Proof. vm_compute. reflexivity. Qed.

Example tour_5x5_corner :
  (w ← tour 25 5 5 0 0 []; Ret (movesMade w)) = Ret 24.
Proof. vm_compute. reflexivity. Qed.

Example demo_output_last :
  last demo_output = Some endl ∧ msg_no_moves ∈ demo_output.
Proof.
  split; [reflexivity|]. unfold demo_output.
  do 20 apply list_elem_of_further. apply list_elem_of_here.
Qed.

(** * Further properties of the code *)

(** ** findMinimumIndex *)

Lemma first_min_index_unique (vec : list Z) (i j : Z) :
  first_min_index vec i → first_min_index vec j → i = j.
Proof.
  intros (Hi & mi & Hmi & Hmini) (Hj & mj & Hmj & Hminj).
  destruct (Hmini _ _ Hmj) as [Hij1 Hij2].
  destruct (Hminj _ _ Hmi) as [Hji1 Hji2].
  destruct (Z.lt_trichotomy i j) as [Hlt|[Heq|Hgt]]; [|done|].
  - assert (Z.to_nat i < Z.to_nat j)%nat as H by lia. specialize (Hji2 H). lia.
  - assert (Z.to_nat j < Z.to_nat i)%nat as H by lia. specialize (Hij2 H). lia.
Qed.

(** X1. [findMinimumIndex] returns [i] exactly when the vector is not
    empty and [i] is the first index of a least element: the element at
    [i] is at most every element and less than every element before it. *)
Theorem findMinimumIndex_first_least :
  ∀ (vec : list Z) (i : Z),
    findMinimumIndex vec = Ret i ↔
    vec ≠ [] ∧ 0 ≤ i < vec_size vec ∧
    ∃ m, vec !! Z.to_nat i = Some m ∧
      ∀ (k : nat) (v : Z), vec !! k = Some v →
        m ≤ v ∧ ((k < Z.to_nat i)%nat → m < v).
Proof.
  intros vec i. split.
  - intros H. destruct vec as [|v0 vec']; [done|]. split; [done|].
    destruct (findMinimumIndex_spec (v0 :: vec')) as (i' & Hi' & Hmin); [done|].
    assert (i' = i) as -> by congruence. exact Hmin.
  - intros (Hne & Hmin).
    destruct (findMinimumIndex_spec vec Hne) as (i' & Hi' & Hmin').
    rewrite Hi'. f_equal. by apply (first_min_index_unique vec).
Qed.

(** ** findMovesFromSquare *)

Lemma int_add_inj (x a b : Z) :
  Z.abs (a - b) < 2 ^ 32 → int_add x a = int_add x b → a = b.
Proof.
  unfold int_add. intros Hab Heq.
  destruct (wrap_congr (x + a)) as [k1 Hk1].
  destruct (wrap_congr (x + b)) as [k2 Hk2].
  assert (a - b = (k1 - k2) * 2 ^ 32) as H by lia. nia.
Qed.

Lemma candidates_NoDup (x y boardX boardY : Z) (Board : board) :
  NoDup (candidates x y boardX boardY Board).
Proof.
  unfold candidates. apply NoDup_filter.
  change (map ?f ?l) with (f <$> l).
  apply NoDup_fmap_2_strong.
  - intros d1 d2 Hd1 Hd2 [= H1 H2].
    pose proof (offsets_small _ Hd1) as [? ?].
    pose proof (offsets_small _ Hd2) as [? ?].
    apply int_add_inj in H1; [|lia]. apply int_add_inj in H2; [|lia].
    destruct d1, d2. simpl in *. congruence.
  - apply (bool_decide_unpack _). vm_compute. reflexivity.
Qed.

(** X2. The squares that [findMovesFromSquare] returns are pairwise
    distinct, at most eight, and none of them is the source square. *)
Theorem findMovesFromSquare_distinct :
  ∀ (x y boardX boardY : Z) (Board : board) (l : list (Z * Z)),
    findMovesFromSquare x y boardX boardY Board = Ret l →
    NoDup l ∧ (length l ≤ 8)%nat ∧ (x, y) ∉ l.
Proof.
  intros x y boardX boardY Board l Hl.
  apply findMovesFromSquare_candidates in Hl as ->.
  split; [apply candidates_NoDup|]. split; [apply candidates_length|].
  intros Hin. by apply (candidates_ne_source _ _ _ _ _ _ Hin).
Qed.

Lemma findMovesFromSquare_distinct_witness :
  NoDup [(2, 1); (1, 2)] ∧ (length [(2, 1); (1, 2)] ≤ 8)%nat ∧
  ((0, 0) ∉ [(2, 1); (1, 2)]).
Proof.
  apply (findMovesFromSquare_distinct 0 0 3 4 [[1;0;0;0]; [0;0;0;0]; [0;0;0;0]]).
  reflexivity.
Defined.

Lemma for_loop_not_OutOfFuel {S : Type} (body : Z → S → result S) (n : nat) :
  (∀ j s, body j s ≠ OutOfFuel) → ∀ i s, for_loop n i body s ≠ OutOfFuel.
Proof.
  intros Hbody. induction n as [|n IH]; intros i s; simpl; [done|].
  destruct (body i s) as [s'| |] eqn:Hb; simpl; [apply IH|done|].
  by destruct (Hbody i s).
Qed.

Lemma board_at_not_OutOfFuel (Board : board) (x y : Z) :
  board_at Board x y ≠ OutOfFuel.
Proof.
  unfold board_at, vec_at.
  destruct (decide (0 ≤ x)); [|done].
  destruct (Board !! Z.to_nat x) as [row|]; simpl; [|done].
  destruct (decide (0 ≤ y)); [|done].
  by destruct (row !! Z.to_nat y).
Qed.

Lemma offsets_lookup (d : Z * Z) :
  d ∈ offsets → ∃ k : nat, (k < 8)%nat ∧ offsets !! k = Some d.
Proof.
  intros [k Hk]%list_elem_of_lookup. exists k. split; [|done].
  apply lookup_lt_Some in Hk. simpl in Hk. lia.
Qed.

(** X3. [findMovesFromSquare] returns exactly when every target that
    passes [isOnBoard] is a cell of the board vector; otherwise it reads
    outside the vector and faults.  It needs no fuel. *)
Theorem findMovesFromSquare_defined :
  ∀ (x y boardX boardY : Z) (Board : board),
    ((∃ l, findMovesFromSquare x y boardX boardY Board = Ret l) ↔
     ∀ d, d ∈ offsets →
       isOnBoard (target x y d).1 (target x y d).2 boardX boardY = true →
       ∃ c, board_at Board (target x y d).1 (target x y d).2 = Ret c) ∧
    findMovesFromSquare x y boardX boardY Board ≠ OutOfFuel.
Proof.
  intros x y boardX boardY Board. split; [split|].
  - intros [l Hl] d Hd Hon.
    unfold findMovesFromSquare, for_range in Hl.
    assert (∀ (k : nat) d', (Z.of_nat k < 0 + Z.of_nat (Z.to_nat (8 - 0))) →
              offsets !! k = Some d' →
              isOnBoard (target x y d').1 (target x y d').2 boardX boardY = true →
              ∃ c, board_at Board (target x y d').1 (target x y d').2 = Ret c) as Hall.
    { eapply (for_loop_partial _
        (λ j _, ∀ (k : nat) d', (Z.of_nat k < j) → offsets !! k = Some d' →
           isOnBoard (target x y d').1 (target x y d').2 boardX boardY = true →
           ∃ c, board_at Board (target x y d').1 (target x y d').2 = Ret c));
        [| |exact Hl].
      - intros j acc acc' Hj HP Hbody k d' Hk Hlook Hon'. cbv beta zeta in Hbody.
        destruct (decide (Z.of_nat k = j)) as [<-|Hne];
          [|apply (HP k d'); [lia|done..]].
        destruct (offsets_nth (Z.of_nat k)) as (d0 & Hd0 & Hdx & Hdy); [lia|].
        rewrite Nat2Z.id in Hd0, Hdx, Hdy. rewrite Nat2Z.id in Hbody.
        assert (d0 = d') as -> by congruence.
        rewrite Hdx, Hdy in Hbody. unfold target in *. simpl in *.
        rewrite Hon' in Hbody. inv_bind Hbody. eauto.
      - intros k d' Hk. lia. }
    destruct (offsets_lookup d Hd) as (k & Hk & Hlook).
    apply (Hall k d); [simpl; lia|done..].
  - intros Hread. unfold findMovesFromSquare, for_range.
    edestruct (for_loop_total
      (λ i moveArray,
         let newX := int_add x (nth (Z.to_nat i) dx 0) in
         let newY := int_add y (nth (Z.to_nat i) dy 0) in
         if isOnBoard newX newY boardX boardY then
           c ← board_at Board newX newY;
           if decide (c ≠ 2) then Ret (moveArray ++ [(newX, newY)])
           else Ret moveArray
         else Ret moveArray)
      (λ _ _, True) (Z.to_nat (8 - 0)) 0 []) as (l & Hl & _); [|done|by exists l].
    intros j acc Hj _. cbv beta zeta.
    destruct (offsets_nth j) as (d & Hd & Hdx & Hdy); [lia|].
    rewrite Hdx, Hdy.
    destruct (isOnBoard _ _ boardX boardY) eqn:Hon; [|by eexists].
    destruct (Hread d) as [c Hc]; [apply list_elem_of_lookup; eauto|done|].
    unfold target in Hc. simpl in Hc. rewrite Hc. simpl.
    destruct (decide (c ≠ 2)); by eexists.
  - unfold findMovesFromSquare, for_range.
    apply for_loop_not_OutOfFuel. intros j acc.
    destruct (isOnBoard _ _ boardX boardY); [|done].
    pose proof (board_at_not_OutOfFuel Board
      (int_add x (nth (Z.to_nat j) dx 0)) (int_add y (nth (Z.to_nat j) dy 0))) as Hb.
    destruct (board_at Board _ _) as [c| |]; simpl; [|done..].
    by destruct (decide (c ≠ 2)).
Qed.

Lemma board_at_on_grid (Board : board) (rows cols x y c : Z) :
  board_dims Board rows cols → board_at Board x y = Ret c →
  0 ≤ x < rows ∧ 0 ≤ y < cols.
Proof.
  intros [Hr Hc] (Hx & Hy & row & Hrow & Hcell)%board_at_Ret.
  pose proof (Forall_lookup_1 _ _ _ _ Hc Hrow) as Hlen. simpl in Hlen.
  apply lookup_lt_Some in Hrow, Hcell. unfold vec_size in *. lia.
Qed.

Lemma offsets_opp (d : Z * Z) : d ∈ offsets → (- d.1, - d.2) ∈ offsets.
Proof.
  unfold offsets. rewrite !elem_of_cons, elem_of_nil.
  intros H. repeat destruct H as [->|H]; simpl; [..|done]; tauto.
Qed.

(** On a grid whose sizes are [int]s, a knight move between two squares
    that are not visited can be taken both ways. *)
Lemma candidates_symmetric (boardX boardY : Z) (Board : board) (p q : Z * Z) (c : Z) :
  board_dims Board boardX boardY → boardX ≤ INT_MAX → boardY ≤ INT_MAX →
  board_at Board p.1 p.2 = Ret c → c ≠ 2 →
  q ∈ candidates p.1 p.2 boardX boardY Board →
  p ∈ candidates q.1 q.2 boardX boardY Board.
Proof.
  intros Hdims HbX HbY Hp Hc [Hlegal (d & Hd & ->)]%elem_of_candidates.
  pose proof (board_at_on_grid _ _ _ _ _ _ Hdims Hp) as [Hp1 Hp2].
  apply legal_spec in Hlegal as [[Hq1 Hq2] _]. simpl in Hq1, Hq2.
  pose proof (offsets_small d Hd) as [Hd1 Hd2].
  unfold int_add in Hq1, Hq2.
  destruct (wrap_congr (p.1 + d.1)) as [k1 Hk1].
  destruct (wrap_congr (p.2 + d.2)) as [k2 Hk2].
  unfold INT_MAX in *.
  assert (k1 = 0) as -> by lia. assert (k2 = 0) as -> by lia.
  apply elem_of_candidates. split.
  - apply legal_spec. split; [lia|]. eauto.
  - exists (- d.1, - d.2). split; [by apply offsets_opp|].
    simpl. unfold int_add. rewrite Hk1, Hk2.
    rewrite !wrap_id by (unfold is_int, INT_MIN, INT_MAX; lia).
    destruct p. simpl. f_equal; lia.
Qed.

(** X4. On a grid whose sizes are [int]s, when the source is a cell that
    does not hold 2, every square that [findMovesFromSquare] returns for
    it has the source among the squares returned for itself. *)
Theorem findMovesFromSquare_symmetric :
  ∀ (x y boardX boardY : Z) (Board : board) (c : Z) (l : list (Z * Z)) (q : Z * Z),
    board_dims Board boardX boardY → boardX ≤ INT_MAX → boardY ≤ INT_MAX →
    board_at Board x y = Ret c → c ≠ 2 →
    findMovesFromSquare x y boardX boardY Board = Ret l → q ∈ l →
    ∃ l', findMovesFromSquare q.1 q.2 boardX boardY Board = Ret l' ∧ (x, y) ∈ l'.
Proof.
  intros x y boardX boardY Board c l q Hdims HbX HbY Hat Hc Hl Hq.
  apply findMovesFromSquare_candidates in Hl as ->.
  exists (candidates q.1 q.2 boardX boardY Board).
  split; [by apply findMovesFromSquare_total|].
  by apply (candidates_symmetric boardX boardY Board (x, y) q c).
Qed.

Lemma findMovesFromSquare_symmetric_witness :
  ∃ l', findMovesFromSquare (2, 1).1 (2, 1).2 3 4
          [[1;0;0;0]; [0;0;0;0]; [0;0;0;0]] = Ret l' ∧ (0, 0) ∈ l'.
Proof.
  apply (findMovesFromSquare_symmetric 0 0 3 4
           [[1;0;0;0]; [0;0;0;0]; [0;0;0;0]] 1 [(2, 1); (1, 2)] (2, 1)).
  - split; [reflexivity|]. repeat constructor.
  - unfold INT_MAX. lia.
  - unfold INT_MAX. lia.
  - reflexivity.
  - lia.
  - reflexivity.
  - apply list_elem_of_here.
Defined.

(** X5. In every frame of a run on a grid whose sizes are [int]s, the
    moves counted for a candidate always include the knight's own square
    (it still holds 1 while the candidates are scored) and otherwise only
    squares that hold 0; so every score lies between 1 and 8. *)
Theorem tour_scores_count_knight :
  ∀ (rows cols startRow startCol : Z) (fuel : nat)
    (s0 s : position) (l : list position) (array : list (Z * Z)) (c : Z * Z),
    0 ≤ startRow < rows → 0 ≤ startCol < cols →
    rows ≤ INT_MAX → cols ≤ INT_MAX →
    start_position rows cols startRow startCol = Ret s0 →
    positions fuel rows cols s0 = Ret l → s ∈ l →
    findMovesFromSquare (pos_row s) (pos_col s) rows cols (pos_board s) = Ret array →
    c ∈ array →
    ∃ lc, findMovesFromSquare c.1 c.2 rows cols (pos_board s) = Ret lc ∧
          (pos_row s, pos_col s) ∈ lc ∧
          (∀ q, q ∈ lc → q = (pos_row s, pos_col s) ∨
                          board_at (pos_board s) q.1 q.2 = Ret 0) ∧
          (1 ≤ length lc ≤ 8)%nat.
Proof.
  intros rows cols startRow startCol fuel s0 s l array c
    Hr Hc HbX HbY Hs0 Hl Hs Harr Hin.
  destruct (start_position_inv rows cols startRow startCol Hr Hc)
    as (s0' & Hs0' & _ & _ & Hinv0 & _).
  assert (s0' = s0) as -> by congruence.
  pose proof (positions_head _ _ _ _ _ Hl) as [l' ->].
  pose proof (positions_is_run _ _ _ _ _ Hl) as Hrun.
  pose proof (run_inv _ _ _ Hrun s0 eq_refl Hinv0) as Hall.
  pose proof (proj1 (Forall_forall _ _) Hall s Hs) as Hinv.
  pose proof Hinv as [Hdims Hcells Hknight Hone].
  apply findMovesFromSquare_candidates in Harr as ->.
  exists (candidates c.1 c.2 rows cols (pos_board s)).
  split; [by apply findMovesFromSquare_total|].
  assert ((pos_row s, pos_col s) ∈ candidates c.1 c.2 rows cols (pos_board s)) as Hk.
  { apply (candidates_symmetric rows cols (pos_board s)
             (pos_row s, pos_col s) c 1); done. }
  split; [done|]. split.
  - intros q [Hlegal _]%elem_of_candidates.
    apply legal_spec in Hlegal as (_ & v & Hv & Hv2).
    destruct (cells_at _ _ _ _ _ Hcells Hv) as [->|[->| ->]]; [by right| |done].
    left. pose proof (count_cells_unique 1 _ _ _ _ _ Hone Hknight Hv) as Heq.
    destruct q. simpl in *. done.
  - split; [|apply candidates_length].
    apply list_elem_of_lookup in Hk as [k Hk]. apply lookup_lt_Some in Hk. lia.
Qed.

Lemma tour_scores_count_knight_witness :
  ∃ lc, findMovesFromSquare (1, 2).1 (1, 2).2 2 3 [[1;0;0]; [0;0;0]] = Ret lc ∧
        (0, 0) ∈ lc ∧
        (∀ q, q ∈ lc → q = (0, 0) ∨ board_at [[1;0;0]; [0;0;0]] q.1 q.2 = Ret 0) ∧
        (1 ≤ length lc ≤ 8)%nat.
Proof.
  apply (tour_scores_count_knight 2 3 0 0 6
           (Position [[1;0;0]; [0;0;0]] 0 0) (Position [[1;0;0]; [0;0;0]] 0 0)
           [Position [[1;0;0]; [0;0;0]] 0 0; Position [[2;0;0]; [0;0;1]] 1 2]
           [(1, 2)] (1, 2)).
  - lia.
  - lia.
  - unfold INT_MAX. lia.
  - unfold INT_MAX. lia.
  - reflexivity.
  - reflexivity.
  - apply list_elem_of_here.
  - reflexivity.
  - apply list_elem_of_here.
Defined.

Lemma board_set_off_board (Board : board) (rows cols x y v : Z) :
  board_dims Board rows cols → isOnBoard x y rows cols = false →
  board_set Board x y v = Fault.
Proof.
  intros [Hr Hc] Hoff.
  destruct (board_set Board x y v) as [B'| |] eqn:Hset; [exfalso|done|exfalso].
  - apply board_set_Ret in Hset as (Hx & Hy & row & Hrow & Hlen & _).
    pose proof (Forall_lookup_1 _ _ _ _ Hc Hrow) as Hrl. simpl in Hrl.
    apply lookup_lt_Some in Hrow.
    assert (isOnBoard x y rows cols = true) as Hon.
    { apply isOnBoard_spec. unfold vec_size in *. lia. }
    congruence.
  - unfold board_set, vec_at, vec_set in Hset.
    destruct (decide (0 ≤ x)); [|done].
    destruct (Board !! Z.to_nat x) as [row|]; simpl in Hset; [|done].
    destruct (decide (0 ≤ y < vec_size row)); simpl in Hset; [|done].
    by destruct (decide (0 ≤ x < vec_size Board)).
Qed.

(** X6. [makeMove] relies on the knight being on the board: called on a
    grid of the announced size with the knight off it and at least one
    candidate, it writes [Board[knightRow][knightCol]] outside the vector,
    which is the outcome [Fault]. *)
Theorem makeMove_off_board_faults :
  ∀ (fuel : nat) (Board : board) (boardX boardY knightRow knightCol : Z)
    (w : world) (array : list (Z * Z)),
    board_dims Board boardX boardY →
    isOnBoard knightRow knightCol boardX boardY = false →
    findMovesFromSquare knightRow knightCol boardX boardY Board = Ret array →
    array ≠ [] →
    makeMove (Datatypes.S fuel) Board boardX boardY knightRow knightCol w = Fault.
Proof.
  intros fuel Board boardX boardY knightRow knightCol w array Hdims Hoff Harr Hne.
  simpl. rewrite Harr. simpl. rewrite decide_True by done.
  rewrite scores_Ret by done. simpl.
  destruct (findMinimumIndex_spec (map (score boardX boardY Board) array))
    as (i & Hi & Hrange & _).
  { by destruct array. }
  unfold vec_size in Hrange. rewrite length_map in Hrange.
  destruct (vec_at_in_range array i Hrange) as [next Hnext].
  rewrite Hi. simpl. rewrite Hnext. simpl.
  by rewrite (board_set_off_board _ _ _ _ _ _ Hdims Hoff).
Qed.

Lemma makeMove_off_board_faults_witness :
  makeMove 1 [[0;0;0]; [0;0;0]; [0;0;0]] 3 3 (-1) 0 (World 0 []) = Fault.
Proof.
  apply (makeMove_off_board_faults 0 [[0;0;0]; [0;0;0]; [0;0;0]] 3 3 (-1) 0
           (World 0 []) [(1, 1); (0, 2)]).
  - split; [reflexivity|]. repeat constructor.
  - reflexivity.
  - reflexivity.
  - discriminate.
Defined.

(** ** The frames of a run *)

Lemma advance_Some_counts (rows cols : Z) (s s' : position) :
  tour_inv rows cols s → advance rows cols s = Ret (Some s') →
  (count_cells 0 (pos_board s') + 1 = count_cells 0 (pos_board s))%nat ∧
  (count_cells 2 (pos_board s') = count_cells 2 (pos_board s) + 1)%nat.
Proof.
  intros Hinv Hadv.
  destruct (advance_cases _ _ _ Hinv)
    as [[_ Hhalt]|(i & next & B1 & B2 & _ & _ & _ & Hzero & Hs1 & Hs2 & Hadv')];
    [congruence|].
  rewrite Hadv' in Hadv. injection Hadv as <-. simpl.
  destruct (move_inv _ _ _ _ _ _ _ Hinv Hzero Hs1 Hs2) as (_ & H0 & H2 & _).
  done.
Qed.

Lemma is_run_consecutive (rows cols : Z) (l : list position) :
  is_run rows cols l → ∀ (i : nat) s s',
  l !! i = Some s → l !! Datatypes.S i = Some s' →
  advance rows cols s = Ret (Some s').
Proof.
  induction 1 as [s0 Hs|s0 s1 l Hs Hrun IH]; intros i s s' Hi Hi'.
  - destruct i; simpl in *; done.
  - destruct i as [|i]; simpl in *.
    + congruence.
    + by apply (IH i).
Qed.

(** Along a run each move turns one 0 into a 2 (by way of the 1). *)
Lemma run_accounting (rows cols : Z) (l : list position) :
  is_run rows cols l → ∀ s, head l = Some s → tour_inv rows cols s →
  ∃ sf, last l = Some sf ∧
    (count_cells 0 (pos_board sf) + (length l - 1) = count_cells 0 (pos_board s))%nat ∧
    (count_cells 2 (pos_board sf) = count_cells 2 (pos_board s) + (length l - 1))%nat.
Proof.
  induction 1 as [s0 Hs|s0 s1 l Hs Hrun IH]; intros s [= <-] Hinv.
  - exists s0. simpl. split; [done|]. lia.
  - destruct (advance_Some_inv _ _ _ _ Hinv Hs) as (Hinv1 & _).
    destruct (advance_Some_counts _ _ _ _ Hinv Hs) as [H0 H2].
    destruct (IH s1 eq_refl Hinv1) as (sf & Hlast & Hc0 & Hc2).
    exists sf. rewrite last_cons_cons. split; [done|]. simpl in *. lia.
Qed.

Lemma start_position_unvisited (rows cols startRow startCol : Z) (s0 : position) :
  0 ≤ startRow < rows → 0 ≤ startCol < cols →
  start_position rows cols startRow startCol = Ret s0 →
  count_cells 2 (pos_board s0) = 0%nat.
Proof.
  intros Hr Hc. unfold start_position.
  set (B0 := replicate (Z.to_nat rows) (replicate (Z.to_nat cols) 0)).
  pose proof (board_at_replicate rows cols startRow startCol 0 Hr Hc) as Hat.
  fold B0 in Hat. intros H. inv_bind H. injection Hr0 as <-. simpl.
  pose proof (count_cells_set 2 _ _ _ _ _ _ Hat Hl) as H2.
  unfold B0 in H2.
  rewrite !count_cells_replicate, !count_row_replicate in H2.
  unfold indicator in *. simpl in *. lia.
Qed.

(** What a completed run from a start square of the board leaves, when
    the number of cells is an [int]. *)
Lemma tour_accounting (rows cols startRow startCol : Z) (fuel : nat)
    (cout : list string) (w : world) :
  0 ≤ startRow < rows → 0 ≤ startCol < cols → rows * cols - 1 ≤ INT_MAX →
  tour fuel rows cols startRow startCol cout = Ret w →
  ∃ s0 l sf,
    start_position rows cols startRow startCol = Ret s0 ∧
    positions fuel rows cols s0 = Ret l ∧
    last l = Some sf ∧
    movesMade w = Z.of_nat (length l) - 1 ∧
    console w = foldl (λ c s, printBoard (pos_board s) c) cout l ∧
    Z.of_nat (count_cells 2 (pos_board sf)) = movesMade w ∧
    Z.of_nat (count_cells 0 (pos_board sf)) = rows * cols - 1 - movesMade w.
Proof.
  intros Hr Hc Hint H. rewrite tour_unfold in H. inv_bind H.
  rename a into s0.
  rewrite makeMove_positions in Hr0. inv_bind Hr0. rename a into l.
  injection Hr0r as <-.
  destruct (start_position_inv rows cols startRow startCol Hr Hc)
    as (s0' & Hs0' & _ & _ & Hinv & Hcount).
  assert (s0' = s0) as -> by congruence.
  pose proof (start_position_unvisited _ _ _ _ _ Hr Hc Hl) as Hc2.
  pose proof (positions_is_run _ _ _ _ _ Hr0l) as Hrun.
  pose proof (positions_head _ _ _ _ _ Hr0l) as [l' ->].
  destruct (run_accounting _ _ _ Hrun s0 eq_refl Hinv) as (sf & Hlast & H0 & H2).
  simpl in H0, H2.
  exists s0, (s0 :: l'), sf. split; [done|]. split; [done|]. split; [done|].
  assert (movesMade (foldl record_move
            (World 0 (printBoard (pos_board s0) cout)) l') = Z.of_nat (length l'))
    as Hmoves.
  { rewrite movesMade_foldl by (simpl; unfold is_int, INT_MIN, INT_MAX; lia).
    simpl. apply wrap_id. unfold is_int, INT_MIN, INT_MAX in *. lia. }
  simpl tail. rewrite Hmoves. rewrite console_foldl. simpl.
  split; [lia|]. split; [done|]. split; lia.
Qed.

(** X7. After a completed run from a start square of the board (the
    number of cells being an [int]), the counter is the number of frames
    less one, it is the number of cells that hold 2 in the last frame, and
    the cells that still hold 0 are [rows * cols - 1 - movesMade]. *)
Theorem tour_counts_visited :
  ∀ (rows cols startRow startCol : Z) (fuel : nat) (cout : list string) (w : world),
    0 ≤ startRow < rows → 0 ≤ startCol < cols → rows * cols - 1 ≤ INT_MAX →
    tour fuel rows cols startRow startCol cout = Ret w →
    ∃ s0 l sf,
      start_position rows cols startRow startCol = Ret s0 ∧
      positions fuel rows cols s0 = Ret l ∧
      last l = Some sf ∧
      movesMade w = Z.of_nat (length l) - 1 ∧
      Z.of_nat (count_cells 2 (pos_board sf)) = movesMade w ∧
      Z.of_nat (count_cells 0 (pos_board sf)) = rows * cols - 1 - movesMade w.
Proof.
  intros rows cols startRow startCol fuel cout w Hr Hc Hint H.
  destruct (tour_accounting _ _ _ _ _ _ _ Hr Hc Hint H)
    as (s0 & l & sf & H1 & H2 & H3 & H4 & _ & H6 & H7).
  by exists s0, l, sf.
Qed.

Lemma tour_counts_visited_witness :
  ∃ s0 l sf,
    start_position 2 3 0 0 = Ret s0 ∧
    positions 6 2 3 s0 = Ret l ∧
    last l = Some sf ∧
    movesMade (World 1 (printBoard [[2;0;0]; [0;0;1]] (printBoard [[1;0;0]; [0;0;0]] [])))
      = Z.of_nat (length l) - 1 ∧
    Z.of_nat (count_cells 2 (pos_board sf)) =
      movesMade (World 1 (printBoard [[2;0;0]; [0;0;1]] (printBoard [[1;0;0]; [0;0;0]] []))) ∧
    Z.of_nat (count_cells 0 (pos_board sf)) = 2 * 3 - 1 -
      movesMade (World 1 (printBoard [[2;0;0]; [0;0;1]] (printBoard [[1;0;0]; [0;0;0]] []))).
Proof.
  apply (tour_counts_visited 2 3 0 0 6 []).
  - lia.
  - lia.
  - unfold INT_MAX. lia.
  - reflexivity.
Defined.

Lemma msg_completed_ne_no_moves : msg_completed ≠ msg_no_moves.
Proof. discriminate. Qed.

(** X8. After a completed run from a start square of the board (the
    number of cells being an [int]), the exit test prints the success
    message exactly when no cell of the last frame holds 0, that is when
    the knight has been on every square. *)
Theorem report_completed_iff_all_visited :
  ∀ (rows cols startRow startCol : Z) (fuel : nat) (cout : list string) (w : world),
    0 ≤ startRow < rows → 0 ≤ startCol < cols → rows * cols ≤ INT_MAX →
    tour fuel rows cols startRow startCol cout = Ret w →
    ∃ s0 l sf,
      start_position rows cols startRow startCol = Ret s0 ∧
      positions fuel rows cols s0 = Ret l ∧
      last l = Some sf ∧
      (report rows cols (movesMade w) (console w)
         = console w ++ [msg_completed; endl] ↔
       count_cells 0 (pos_board sf) = 0%nat).
Proof.
  intros rows cols startRow startCol fuel cout w Hr Hc Hint H.
  destruct (tour_accounting _ _ _ _ _ _ _ Hr Hc ltac:(lia) H)
    as (s0 & l & sf & H1 & H2 & H3 & _ & _ & _ & H7).
  exists s0, l, sf. split; [done|]. split; [done|]. split; [done|].
  unfold report.
  assert (int_sub (int_mul rows cols) 1 = rows * cols - 1) as ->.
  { unfold int_sub, int_mul.
    rewrite (wrap_id (rows * cols)) by (unfold is_int, INT_MIN, INT_MAX in *; nia).
    apply wrap_id. unfold is_int, INT_MIN, INT_MAX in *. nia. }
  destruct (decide (movesMade w = rows * cols - 1)) as [Heq|Hne]; split.
  - intros _. lia.
  - done.
  - intros Habs. apply app_inv_head in Habs. by injection Habs.
  - intros Hz. lia.
Qed.

Lemma report_completed_iff_all_visited_witness :
  ∃ s0 l sf,
    start_position 2 3 0 0 = Ret s0 ∧
    positions 6 2 3 s0 = Ret l ∧
    last l = Some sf ∧
    (report 2 3
       (movesMade (World 1 (printBoard [[2;0;0]; [0;0;1]] (printBoard [[1;0;0]; [0;0;0]] []))))
       (console (World 1 (printBoard [[2;0;0]; [0;0;1]] (printBoard [[1;0;0]; [0;0;0]] []))))
       = console (World 1 (printBoard [[2;0;0]; [0;0;1]] (printBoard [[1;0;0]; [0;0;0]] [])))
         ++ [msg_completed; endl] ↔
     count_cells 0 (pos_board sf) = 0%nat).
Proof.
  apply (report_completed_iff_all_visited 2 3 0 0 6 []).
  - lia.
  - lia.
  - unfold INT_MAX. lia.
  - reflexivity.
Defined.

(** X9. Between two successive frames of a run on a grid whose sizes are
    [int]s, the knight moves by one of the eight offsets to a square that
    held 0; that square now holds 1, the square it left holds 2, and every
    other cell is as before. *)
Theorem tour_move_frame :
  ∀ (rows cols startRow startCol : Z) (fuel : nat)
    (s0 : position) (l : list position) (i : nat) (s s' : position),
    0 ≤ startRow < rows → 0 ≤ startCol < cols →
    rows ≤ INT_MAX → cols ≤ INT_MAX →
    start_position rows cols startRow startCol = Ret s0 →
    positions fuel rows cols s0 = Ret l →
    l !! i = Some s → l !! Datatypes.S i = Some s' →
    (∃ d, d ∈ offsets ∧
          pos_row s' = pos_row s + d.1 ∧ pos_col s' = pos_col s + d.2) ∧
    board_at (pos_board s) (pos_row s') (pos_col s') = Ret 0 ∧
    ∀ x y, board_at (pos_board s') x y =
      if decide ((x, y) = (pos_row s', pos_col s')) then Ret 1
      else if decide ((x, y) = (pos_row s, pos_col s)) then Ret 2
      else board_at (pos_board s) x y.
Proof.
  intros rows cols startRow startCol fuel s0 l i s s'
    Hr Hc HbX HbY Hs0 Hl Hi Hi'.
  destruct (start_position_inv rows cols startRow startCol Hr Hc)
    as (s0' & Hs0' & _ & _ & Hinv0 & _).
  assert (s0' = s0) as -> by congruence.
  pose proof (positions_head _ _ _ _ _ Hl) as [l' ->].
  pose proof (positions_is_run _ _ _ _ _ Hl) as Hrun.
  pose proof (run_inv _ _ _ Hrun s0 eq_refl Hinv0) as Hall.
  assert (tour_inv rows cols s) as Hinv.
  { apply (proj1 (Forall_forall _ _) Hall). apply list_elem_of_lookup. eauto. }
  pose proof (is_run_consecutive _ _ _ Hrun i s s' Hi Hi') as Hadv.
  destruct (advance_Some_inv _ _ _ _ Hinv Hadv) as (Hinv' & Hcand & Hzero & Hframe).
  split; [|done].
  apply elem_of_candidates in Hcand as [Hlegal (d & Hd & Heq)].
  injection Heq as Hrow Hcol.
  exists d. split; [done|].
  pose proof (offsets_small d Hd) as [Hd1 Hd2].
  pose proof (board_at_on_grid _ _ _ _ _ _ (inv_dims _ _ _ Hinv) (inv_knight _ _ _ Hinv))
    as [Hk1 Hk2].
  pose proof (board_at_on_grid _ _ _ _ _ _ (inv_dims _ _ _ Hinv) Hzero) as [Hn1 Hn2].
  unfold int_add in Hrow, Hcol.
  destruct (wrap_congr (pos_row s + d.1)) as [k1 Hk1'].
  destruct (wrap_congr (pos_col s + d.2)) as [k2 Hk2'].
  unfold INT_MAX in *. lia.
Qed.

Lemma tour_move_frame_witness :
  (∃ d, d ∈ offsets ∧
        pos_row (Position [[2;0;0]; [0;0;1]] 1 2)
          = pos_row (Position [[1;0;0]; [0;0;0]] 0 0) + d.1 ∧
        pos_col (Position [[2;0;0]; [0;0;1]] 1 2)
          = pos_col (Position [[1;0;0]; [0;0;0]] 0 0) + d.2) ∧
  board_at (pos_board (Position [[1;0;0]; [0;0;0]] 0 0))
    (pos_row (Position [[2;0;0]; [0;0;1]] 1 2))
    (pos_col (Position [[2;0;0]; [0;0;1]] 1 2)) = Ret 0 ∧
  ∀ x y, board_at (pos_board (Position [[2;0;0]; [0;0;1]] 1 2)) x y =
    if decide ((x, y) = (pos_row (Position [[2;0;0]; [0;0;1]] 1 2),
                         pos_col (Position [[2;0;0]; [0;0;1]] 1 2))) then Ret 1
    else if decide ((x, y) = (pos_row (Position [[1;0;0]; [0;0;0]] 0 0),
                              pos_col (Position [[1;0;0]; [0;0;0]] 0 0))) then Ret 2
    else board_at (pos_board (Position [[1;0;0]; [0;0;0]] 0 0)) x y.
Proof.
  apply (tour_move_frame 2 3 0 0 6 (Position [[1;0;0]; [0;0;0]] 0 0)
           [Position [[1;0;0]; [0;0;0]] 0 0; Position [[2;0;0]; [0;0;1]] 1 2] 0).
  - lia.
  - lia.
  - unfold INT_MAX. lia.
  - unfold INT_MAX. lia.
  - reflexivity.
  - reflexivity.
  - reflexivity.
  - reflexivity.
Defined.

(** ** printBoard *)

Lemma count_chunks_app (g : string) (a b : list string) :
  count_chunks g (a ++ b) = (count_chunks g a + count_chunks g b)%nat.
Proof. unfold count_chunks. by rewrite filter_app, length_app. Qed.

Lemma count_chunks_cons (g c : string) (a : list string) :
  count_chunks g (c :: a) =
  ((if decide (c = g) then 1 else 0) + count_chunks g a)%nat.
Proof.
  unfold count_chunks. rewrite filter_cons.
  by destruct (decide (c = g)).
Qed.

Lemma glyph_ne_endl (c : Z) : glyph c ≠ endl.
Proof. unfold glyph. repeat case_decide; discriminate. Qed.

Lemma count_glyphs_row (g : string) (v : Z) (row : list Z) :
  (∀ c, glyph c = g ↔ c = v) →
  count_chunks g (map glyph row) = count_row v row.
Proof.
  intros Hg. induction row as [|c row IH]; [done|].
  simpl map. rewrite count_chunks_cons, IH. unfold count_row at 2. simpl.
  unfold indicator. fold (count_row v row).
  destruct (decide (glyph c = g)) as [H|H], (decide (c = v)) as [H'|H'];
    try done; exfalso.
  - by apply H', Hg.
  - by apply H, Hg.
Qed.

Lemma count_glyphs_board (g : string) (v : Z) (Board : board) :
  (∀ c, glyph c = g ↔ c = v) →
  count_chunks g (concat (map (λ row, map glyph row ++ [endl]) Board))
  = count_cells v Board.
Proof.
  intros Hg. induction Board as [|row Board IH]; [done|].
  simpl. rewrite !count_chunks_app, IH, (count_glyphs_row g v) by done.
  rewrite count_chunks_cons. unfold count_cells. simpl.
  destruct (decide (endl = g)) as [<-|_]; [|unfold count_chunks; simpl; lia].
  exfalso. by apply (glyph_ne_endl v), Hg.
Qed.

Lemma glyph_K (c : Z) : glyph c = "[K]"%string ↔ c = 1.
Proof. unfold glyph. repeat case_decide; split; (done || lia || discriminate). Qed.

Lemma glyph_visited (c : Z) : glyph c = "[/]"%string ↔ c = 2.
Proof. unfold glyph. repeat case_decide; split; (done || lia || discriminate). Qed.

Lemma printBoard_count (g : string) (v : Z) (Board : board) (cout : list string) :
  (∀ c, glyph c = g ↔ c = v) →
  count_chunks g (printBoard Board cout) = (count_chunks g cout + count_cells v Board)%nat.
Proof.
  intros Hg. unfold printBoard.
  rewrite !count_chunks_app, (count_glyphs_board g v) by done.
  rewrite count_chunks_cons.
  destruct (decide (endl = g)) as [<-|_]; [|simpl; unfold count_chunks; simpl; lia].
  exfalso. by apply (glyph_ne_endl v), Hg.
Qed.

Lemma count_endl_row (row : list Z) : count_chunks endl (map glyph row) = 0%nat.
Proof.
  induction row as [|c row IH]; [done|]. simpl map.
  rewrite count_chunks_cons, IH.
  destruct (decide (glyph c = endl)) as [H|_]; [|done].
  by apply glyph_ne_endl in H.
Qed.

Lemma count_endl_lines (Board : board) :
  count_chunks endl (concat (map (λ row, map glyph row ++ [endl]) Board))
  = length Board.
Proof.
  induction Board as [|row Board IH]; [done|].
  simpl. rewrite !count_chunks_app, IH, count_endl_row, count_chunks_cons.
  destruct (decide (endl = endl)); [|done].
  change (count_chunks endl []) with 0%nat. lia.
Qed.

(** X10. [printBoard] leaves what was on the console in place and adds
    one chunk per cell, one line end per row and a final line end, which
    is the last chunk; the chunks "[K]" it adds are as many as the cells
    holding 1, the chunks "[/]" as many as the cells holding 2, and the
    chunks "[ ]" as many as the other cells. *)
Theorem printBoard_glyph_counts :
  ∀ (Board : board) (cout : list string),
    printBoard Board cout = cout ++ printBoard Board [] ∧
    length (printBoard Board []) = (length (concat Board) + length Board + 1)%nat ∧
    count_chunks endl (printBoard Board []) = (length Board + 1)%nat ∧
    last (printBoard Board cout) = Some endl ∧
    count_chunks "[K]" (printBoard Board []) = count_cells 1 Board ∧
    count_chunks "[/]" (printBoard Board []) = count_cells 2 Board ∧
    (count_chunks "[ ]" (printBoard Board []) + count_cells 1 Board
       + count_cells 2 Board = length (concat Board))%nat.
Proof.
  intros Board cout. split; [done|].
  assert (length (printBoard Board [])
          = (length (concat Board) + length Board + 1)%nat) as Hlen.
  { unfold printBoard. simpl. rewrite length_app. simpl.
    induction Board as [|row Board IH]; [done|].
    simpl. rewrite !length_app, length_map in *. simpl. lia. }
  assert (count_chunks endl (printBoard Board []) = (length Board + 1)%nat) as Hendl.
  { unfold printBoard. simpl.
    rewrite count_chunks_app, count_endl_lines, count_chunks_cons.
    destruct (decide (endl = endl)); [|done].
    change (count_chunks endl []) with 0%nat. lia. }
  pose proof (printBoard_count "[K]" 1 Board [] glyph_K) as HK.
  pose proof (printBoard_count "[/]" 2 Board [] glyph_visited) as HV.
  unfold count_chunks at 2 in HK. unfold count_chunks at 2 in HV. simpl in HK, HV.
  split; [done|]. split; [done|].
  split; [unfold printBoard; by rewrite !app_assoc, last_snoc|].
  split; [done|]. split; [done|].
  assert (∀ out : list string,
    Forall (λ c, c = endl ∨ c = "[K]"%string ∨ c = "[/]"%string ∨ c = "[ ]"%string) out →
    (count_chunks endl out + count_chunks "[K]" out + count_chunks "[/]" out
       + count_chunks "[ ]" out = length out)%nat) as Hsplit.
  { induction 1 as [|c out Hc _ IH]; [done|].
    rewrite !count_chunks_cons. simpl length.
    destruct Hc as [->|[->|[->| ->]]];
      repeat (destruct (decide _) as [Hd|Hd];
              [try (exfalso; vm_compute in Hd; discriminate Hd)
              |try (exfalso; by apply Hd)];
              try clear Hd);
      lia. }
  assert (Forall (λ c, c = endl ∨ c = "[K]"%string ∨ c = "[/]"%string ∨ c = "[ ]"%string)
            (printBoard Board [])) as Hall.
  { apply printBoard_Forall; [by left| |done].
    intros c. right. unfold glyph. repeat case_decide; auto. }
  specialize (Hsplit _ Hall). lia.
Qed.

Lemma glyph_inj (c1 c2 : Z) :
  (c1 = 0 ∨ c1 = 1 ∨ c1 = 2) → (c2 = 0 ∨ c2 = 1 ∨ c2 = 2) →
  glyph c1 = glyph c2 → c1 = c2.
Proof.
  intros [->|[->| ->]] [->|[->| ->]]; vm_compute; (done || discriminate).
Qed.

Lemma row_line_inj (r1 : list Z) :
  ∀ (r2 : list Z) (t1 t2 : list string),
  Forall (λ c, c = 0 ∨ c = 1 ∨ c = 2) r1 →
  Forall (λ c, c = 0 ∨ c = 1 ∨ c = 2) r2 →
  map glyph r1 ++ endl :: t1 = map glyph r2 ++ endl :: t2 →
  r1 = r2 ∧ t1 = t2.
Proof.
  induction r1 as [|c1 r1 IH]; intros [|c2 r2] t1 t2 H1 H2 Heq; simpl in Heq.
  - by injection Heq as ->.
  - injection Heq as Hc _. symmetry in Hc. by apply glyph_ne_endl in Hc.
  - injection Heq as Hc _. by apply glyph_ne_endl in Hc.
  - apply Forall_cons in H1 as [Hc1 H1]. apply Forall_cons in H2 as [Hc2 H2].
    injection Heq as Hc Heq.
    apply glyph_inj in Hc as ->; [|done..].
    destruct (IH r2 t1 t2 H1 H2 Heq) as [-> ->]. done.
Qed.

(** X11. The display determines the board: two boards whose cells are 0,
    1 or 2 and that [printBoard] renders alike are equal. *)
Theorem printBoard_injective :
  ∀ (Board1 Board2 : board) (cout : list string),
    Forall (Forall (λ c, c = 0 ∨ c = 1 ∨ c = 2)) Board1 →
    Forall (Forall (λ c, c = 0 ∨ c = 1 ∨ c = 2)) Board2 →
    printBoard Board1 cout = printBoard Board2 cout →
    Board1 = Board2.
Proof.
  intros Board1 Board2 cout H1 H2 Heq. unfold printBoard in Heq.
  apply app_inv_head in Heq. apply app_inv_tail in Heq.
  revert Board2 H2 Heq.
  induction H1 as [|r1 Board1 Hr1 _ IH]; intros [|r2 Board2] H2 Heq.
  - done.
  - simpl in Heq. destruct r2; discriminate.
  - simpl in Heq. destruct r1; discriminate.
  - apply Forall_cons in H2 as [Hr2 H2]. simpl in Heq.
    rewrite <- !app_assoc in Heq. simpl in Heq.
    apply row_line_inj in Heq as [-> Heq]; [|done..].
    f_equal. by apply IH.
Qed.

Lemma printBoard_injective_witness :
  [[2;0;0]; [0;0;1]] = [[2;0;0]; [0;0;1]].
Proof.
  apply (printBoard_injective [[2;0;0]; [0;0;1]] [[2;0;0]; [0;0;1]] ["x"%string]).
  - repeat first [apply Forall_nil_2 | apply Forall_cons_2 | lia].
  - repeat first [apply Forall_nil_2 | apply Forall_cons_2 | lia].
  - reflexivity.
Defined.

Lemma count_K_frames (l : list position) :
  Forall (λ s, count_cells 1 (pos_board s) = 1%nat) l →
  ∀ cout, count_chunks "[K]" (foldl (λ c s, printBoard (pos_board s) c) cout l)
          = (count_chunks "[K]" cout + length l)%nat.
Proof.
  induction 1 as [|s l Hs _ IH]; intros cout; simpl; [lia|].
  rewrite IH, (printBoard_count _ 1) by apply glyph_K. lia.
Qed.

(** X12. A completed run from a start square of the board (the number of
    cells being an [int]) displays one board more than it counts moves,
    each with exactly one "[K]": the chunks "[K]" added to the console
    are [movesMade + 1]. *)
Theorem tour_displays_each_frame :
  ∀ (rows cols startRow startCol : Z) (fuel : nat) (cout : list string) (w : world),
    0 ≤ startRow < rows → 0 ≤ startCol < cols → rows * cols - 1 ≤ INT_MAX →
    tour fuel rows cols startRow startCol cout = Ret w →
    Z.of_nat (count_chunks "[K]" (console w))
    = Z.of_nat (count_chunks "[K]" cout) + movesMade w + 1.
Proof.
  intros rows cols startRow startCol fuel cout w Hr Hc Hint H.
  destruct (tour_accounting _ _ _ _ _ _ _ Hr Hc Hint H)
    as (s0 & l & sf & Hs0 & Hl & _ & Hmoves & Hconsole & _).
  destruct (start_position_inv rows cols startRow startCol Hr Hc)
    as (s0' & Hs0' & _ & _ & Hinv0 & _).
  assert (s0' = s0) as -> by congruence.
  pose proof (positions_head _ _ _ _ _ Hl) as [l' ->].
  pose proof (positions_is_run _ _ _ _ _ Hl) as Hrun.
  pose proof (run_inv _ _ _ Hrun s0 eq_refl Hinv0) as Hall.
  rewrite Hconsole, count_K_frames; [lia|].
  eapply Forall_impl; [exact Hall|]. intros s Hs. apply Hs.
Qed.

Lemma tour_displays_each_frame_witness :
  Z.of_nat (count_chunks "[K]"
    (console (World 1 (printBoard [[2;0;0]; [0;0;1]] (printBoard [[1;0;0]; [0;0;0]] [])))))
  = Z.of_nat (count_chunks "[K]" []) +
    movesMade (World 1 (printBoard [[2;0;0]; [0;0;1]] (printBoard [[1;0;0]; [0;0;0]] []))) + 1.
Proof.
  apply (tour_displays_each_frame 2 3 0 0 6 []).
  - lia.
  - lia.
  - unfold INT_MAX. lia.
  - reflexivity.
Defined.

(** ** inputInteger and getPairFromUser *)

Lemma accept_spec (i lowerBound upperBound : Z) :
  (i >=? lowerBound) && (i <=? upperBound) = true ↔ lowerBound ≤ i ≤ upperBound.
Proof. rewrite andb_true_iff. lia. Qed.

Lemma inputInteger_rejected (lowerBound upperBound : Z) (text : string)
    (t : option Z) (cin : list (option Z)) (cout : list string) :
  rejected lowerBound upperBound t →
  inputInteger lowerBound upperBound text (t :: cin) cout
  = inputInteger lowerBound upperBound text cin (cout ++ [text]).
Proof.
  intros Hrej. simpl. destruct t as [i|]; [|done].
  destruct ((i >=? lowerBound) && (i <=? upperBound)) eqn:Hb; [|done].
  apply accept_spec in Hb. by destruct Hrej.
Qed.

Lemma rejected_or_accepted (lowerBound upperBound : Z) (t : option Z) :
  rejected lowerBound upperBound t ∨
  ∃ i, t = Some i ∧ lowerBound ≤ i ≤ upperBound.
Proof.
  destruct t as [i|]; [|by left].
  destruct (decide (lowerBound ≤ i ≤ upperBound)); [right; eauto|by left].
Qed.

Lemma inputInteger_Ret_iff (lowerBound upperBound : Z) (text : string)
    (cin : list (option Z)) :
  ∀ (cout : list string) i cin' cout',
  inputInteger lowerBound upperBound text cin cout = Ret (i, cin', cout') ↔
  ∃ pre, cin = pre ++ Some i :: cin' ∧
         Forall (rejected lowerBound upperBound) pre ∧
         lowerBound ≤ i ≤ upperBound ∧
         cout' = cout ++ replicate (Datatypes.S (length pre)) text.
Proof.
  induction cin as [|t cin IH]; intros cout i cin' cout'.
  - split; [done|]. intros (pre & Heq & _). by destruct pre.
  - destruct (rejected_or_accepted lowerBound upperBound t)
      as [Hrej|(i0 & -> & Hi0)].
    + rewrite inputInteger_rejected by done. rewrite IH. split.
      * intros (pre & -> & Hpre & Hi & ->). exists (t :: pre).
        split; [done|]. split; [by apply Forall_cons|]. split; [done|].
        rewrite <- app_assoc. done.
      * intros (pre & Heq & Hpre & Hi & ->).
        destruct pre as [|t' pre]; simpl in Heq; injection Heq as -> ->.
        -- simpl in Hrej. lia.
        -- apply Forall_cons in Hpre as [_ Hpre]. exists pre.
           split; [done|]. split; [done|]. split; [done|].
           rewrite <- app_assoc. done.
    + simpl. rewrite (proj2 (accept_spec _ _ _) Hi0). split.
      * intros [= -> -> <-]. exists [].
        split; [done|]. split; [by constructor|]. split; [done|]. done.
      * intros (pre & Heq & Hpre & Hi & ->).
        destruct pre as [|t' pre]; simpl in Heq; injection Heq as <-; intros.
        -- by subst.
        -- apply Forall_cons in Hpre as [Hrej _]. simpl in Hrej. lia.
Qed.

(** X13. [inputInteger] returns the first extracted value that lies
    within the bounds: it returns [i] exactly when the extractions before
    [i] all failed or were out of bounds and [i] is within them; it then
    leaves the rest of the input unread and has printed the prompt once
    per extraction made. *)
Theorem inputInteger_first_accepted :
  ∀ (lowerBound upperBound : Z) (text : string) (cin : list (option Z))
    (cout : list string) (i : Z) (cin' : list (option Z)) (cout' : list string),
    inputInteger lowerBound upperBound text cin cout = Ret (i, cin', cout') ↔
    ∃ pre, cin = pre ++ Some i :: cin' ∧
           Forall (rejected lowerBound upperBound) pre ∧
           lowerBound ≤ i ≤ upperBound ∧
           cout' = cout ++ replicate (Datatypes.S (length pre)) text.
Proof. intros. apply inputInteger_Ret_iff. Qed.

Lemma inputInteger_OutOfFuel_iff (lowerBound upperBound : Z) (text : string)
    (cin : list (option Z)) :
  ∀ cout,
  inputInteger lowerBound upperBound text cin cout ≠ Fault ∧
  (inputInteger lowerBound upperBound text cin cout = OutOfFuel ↔
   Forall (rejected lowerBound upperBound) cin).
Proof.
  induction cin as [|t cin IH]; intros cout.
  - split; [done|]. split; [by constructor|done].
  - destruct (rejected_or_accepted lowerBound upperBound t)
      as [Hrej|(i0 & -> & Hi0)].
    + rewrite inputInteger_rejected by done.
      destruct (IH (cout ++ [text])) as [Hnf Hiff]. split; [done|].
      rewrite Hiff. split; [by apply Forall_cons_2|].
      by intros [_ ?]%Forall_cons.
    + simpl. rewrite (proj2 (accept_spec _ _ _) Hi0).
      split; [done|]. split; [done|].
      intros [Hrej _]%Forall_cons. simpl in Hrej. lia.
Qed.

(** X14. [inputInteger] never faults, and it fails to return exactly when
    no extraction of the input yields a value within the bounds (it then
    prompts for ever); in particular it never returns when the upper bound
    is below the lower one. *)
Theorem inputInteger_waits_for_valid :
  ∀ (lowerBound upperBound : Z) (text : string) (cin : list (option Z))
    (cout : list string),
    inputInteger lowerBound upperBound text cin cout ≠ Fault ∧
    (inputInteger lowerBound upperBound text cin cout = OutOfFuel ↔
     Forall (rejected lowerBound upperBound) cin) ∧
    (upperBound < lowerBound →
     inputInteger lowerBound upperBound text cin cout = OutOfFuel).
Proof.
  intros lowerBound upperBound text cin cout.
  destruct (inputInteger_OutOfFuel_iff lowerBound upperBound text cin cout)
    as [Hnf Hiff].
  split; [done|]. split; [done|].
  intros Hempty. apply Hiff. apply Forall_forall. intros [i|] _; simpl; [lia|done].
Qed.

Lemma inputInteger_waits_for_valid_witness :
  inputInteger 5 4 "n:"%string [Some 4; Some 5; None] [] = OutOfFuel.
Proof.
  apply (proj2 (proj2 (inputInteger_waits_for_valid 5 4 "n:"%string
                         [Some 4; Some 5; None] []))).
  lia.
Defined.

(** X15. [getPairFromUser] reads the first coordinate and then the
    second: it returns exactly when the input holds, after extractions
    rejected for the first bounds, a value [i] within them, then after
    extractions rejected for the second bounds a value [j] within those;
    the pair is (i - offset, j - offset) in [int] arithmetic, the rest of
    the input is left unread, and each prompt was printed once per
    extraction made for its coordinate. *)
Theorem getPairFromUser_reads_in_order :
  ∀ (lowerBound upperBound lowerBound2 upperBound2 : Z) (text text2 : string)
    (offset : Z) (cin : list (option Z)) (cout : list string)
    (p : Z * Z) (cin' : list (option Z)) (cout' : list string),
    getPairFromUser lowerBound upperBound lowerBound2 upperBound2
      text text2 offset cin cout = Ret (p, cin', cout') ↔
    ∃ pre1 i pre2 j,
      cin = pre1 ++ Some i :: pre2 ++ Some j :: cin' ∧
      Forall (rejected lowerBound upperBound) pre1 ∧
      lowerBound ≤ i ≤ upperBound ∧
      Forall (rejected lowerBound2 upperBound2) pre2 ∧
      lowerBound2 ≤ j ≤ upperBound2 ∧
      p = (int_sub i offset, int_sub j offset) ∧
      cout' = cout ++ replicate (Datatypes.S (length pre1)) text
                   ++ replicate (Datatypes.S (length pre2)) text2.
Proof.
  intros lowerBound upperBound lowerBound2 upperBound2 text text2 offset
    cin cout p cin' cout'.
  unfold getPairFromUser. split.
  - intros H. inv_bind H. destruct a as [[i cin1] cout1]. inv_bind Hr.
    destruct a as [[j cin2] cout2]. injection Hrr as <- <- <-.
    apply inputInteger_Ret_iff in Hl as (pre1 & -> & Hpre1 & Hi & ->).
    apply inputInteger_Ret_iff in Hrl as (pre2 & -> & Hpre2 & Hj & ->).
    exists pre1, i, pre2, j. rewrite <- app_assoc.
    split; [done|]. split; [done|]. split; [done|]. split; [done|].
    split; [done|]. split; done.
  - intros (pre1 & i & pre2 & j & -> & Hpre1 & Hi & Hpre2 & Hj & -> & ->).
    apply bind_Ret.
    exists (i, pre2 ++ Some j :: cin',
            cout ++ replicate (Datatypes.S (length pre1)) text).
    split.
    + apply inputInteger_Ret_iff. exists pre1.
      split; [done|]. split; [done|]. split; done.
    + apply bind_Ret.
      exists (j, cin', (cout ++ replicate (Datatypes.S (length pre1)) text)
                          ++ replicate (Datatypes.S (length pre2)) text2).
      split.
      * apply inputInteger_Ret_iff. exists pre2.
        split; [done|]. split; [done|]. split; done.
      * by rewrite <- app_assoc.
Qed.

(** ** The whole program *)

Lemma positions_not_Fault (rows cols : Z) (fuel : nat) :
  ∀ s, tour_inv rows cols s → positions fuel rows cols s ≠ Fault.
Proof.
  induction fuel as [|fuel IH]; intros s Hinv; simpl; [done|].
  destruct (advance_cases _ _ _ Hinv)
    as [[_ Hhalt]|(i & next & B1 & B2 & _ & _ & _ & Hzero & Hs1 & Hs2 & Hadv)].
  - by rewrite Hhalt.
  - rewrite Hadv. simpl.
    destruct (move_inv _ _ _ _ _ _ _ Hinv Hzero Hs1 Hs2) as (Hinv' & _).
    specialize (IH _ Hinv').
    by destruct (positions fuel rows cols (Position B2 next.1 next.2)).
Qed.

Lemma tour_not_Fault (fuel : nat) (rows cols startRow startCol : Z)
    (cout : list string) :
  0 ≤ startRow < rows → 0 ≤ startCol < cols →
  tour fuel rows cols startRow startCol cout ≠ Fault.
Proof.
  intros Hr Hc.
  destruct (start_position_inv rows cols startRow startCol Hr Hc)
    as (s0 & Hs0 & _ & _ & Hinv & _).
  rewrite tour_unfold, Hs0. simpl. rewrite makeMove_positions.
  pose proof (positions_not_Fault rows cols fuel s0 Hinv) as Hnf.
  by destruct (positions fuel rows cols s0).
Qed.

Lemma tour_returns (fuel : nat) (rows cols startRow startCol : Z)
    (cout : list string) :
  0 ≤ startRow < rows → 0 ≤ startCol < cols →
  (Z.to_nat (rows * cols) ≤ fuel)%nat →
  ∃ w, tour fuel rows cols startRow startCol cout = Ret w.
Proof.
  intros Hr Hc Hfuel.
  destruct (start_position_inv rows cols startRow startCol Hr Hc)
    as (s0 & Hs0 & _ & _ & Hinv & Hcount).
  destruct (positions_terminate rows cols _ s0 fuel Hinv eq_refl)
    as (l & Hl & _); [lia|].
  rewrite tour_unfold, Hs0. simpl. rewrite makeMove_positions, Hl. simpl. eauto.
Qed.

Lemma getPairFromUser_not_Fault (lowerBound upperBound lowerBound2 upperBound2 : Z)
    (text text2 : string) (offset : Z) (cin : list (option Z)) (cout : list string) :
  getPairFromUser lowerBound upperBound lowerBound2 upperBound2
    text text2 offset cin cout ≠ Fault.
Proof.
  unfold getPairFromUser.
  pose proof (inputInteger_OutOfFuel_iff lowerBound upperBound text cin cout) as [H1 _].
  destruct (inputInteger lowerBound upperBound text cin cout)
    as [[[i cin1] cout1]| |]; simpl; [|done..].
  pose proof (inputInteger_OutOfFuel_iff lowerBound2 upperBound2 text2 cin1 cout1)
    as [H2 _].
  by destruct (inputInteger lowerBound2 upperBound2 text2 cin1 cout1)
    as [[[j cin2] cout2]| |].
Qed.

(** X16. Whatever is typed, [main] never reads or writes outside a
    vector: it does not fault.  And once both pairs of the configuration
    have been read, a hundred frames are enough for it to return with
    exit code 0. *)
Theorem main_never_faults :
  ∀ (fuel : nat) (cin : list (option Z)),
    main fuel cin ≠ Fault ∧
    ((100 ≤ fuel)%nat →
     ∀ boardSize cin1 cout1 start cin2 cout2,
       getPairFromUser 3 10 3 10
         "Enter number of rows (between 3-10):"
         "Enter number of columns (between 3-10):" 0 cin [banner; endl]
         = Ret (boardSize, cin1, cout1) →
       getPairFromUser 1 boardSize.1 1 boardSize.2
         "Enter starting row of knight:"
         "Enter starting column of knight:" 1 cin1 cout1
         = Ret (start, cin2, cout2) →
       ∃ out, main fuel cin = Ret (0, out)).
Proof.
  intros fuel cin.
  assert (∀ boardSize cin1 cout1 start cin2 cout2,
    getPairFromUser 3 10 3 10
      "Enter number of rows (between 3-10):"
      "Enter number of columns (between 3-10):" 0 cin [banner; endl]
      = Ret (boardSize, cin1, cout1) →
    getPairFromUser 1 boardSize.1 1 boardSize.2
      "Enter starting row of knight:"
      "Enter starting column of knight:" 1 cin1 cout1
      = Ret (start, cin2, cout2) →
    (3 ≤ boardSize.1 ≤ 10 ∧ 3 ≤ boardSize.2 ≤ 10) ∧
    0 ≤ start.1 < boardSize.1 ∧ 0 ≤ start.2 < boardSize.2) as Hconf.
  { intros boardSize cin1 cout1 start cin2 cout2 H1 H2.
    apply getPairFromUser_Ret in H1 as (rows & cols & Hrows & Hcols & -> & _).
    unfold int_sub in H2. rewrite !Z.sub_0_r in H2.
    rewrite !wrap_id in H2 by (unfold is_int, INT_MIN, INT_MAX; lia).
    apply getPairFromUser_Ret in H2 as (i & j & Hi & Hj & -> & _).
    simpl in *. unfold int_sub. rewrite !Z.sub_0_r.
    rewrite !wrap_id by (unfold is_int, INT_MIN, INT_MAX; lia). lia. }
  split.
  - unfold main.
    pose proof (getPairFromUser_not_Fault 3 10 3 10
      "Enter number of rows (between 3-10):"
      "Enter number of columns (between 3-10):" 0 cin [banner; endl]) as Hnf1.
    destruct (getPairFromUser 3 10 3 10 _ _ 0 cin [banner; endl])
      as [[[boardSize cin1] cout1]| |] eqn:H1; simpl; [|done..].
    pose proof (getPairFromUser_not_Fault 1 boardSize.1 1 boardSize.2
      "Enter starting row of knight:"
      "Enter starting column of knight:" 1 cin1 cout1) as Hnf2.
    destruct (getPairFromUser 1 boardSize.1 1 boardSize.2 _ _ 1 cin1 cout1)
      as [[[start cin2] cout2]| |] eqn:H2; simpl; [|done..].
    destruct (Hconf _ _ _ _ _ _ eq_refl H2) as (_ & Hr & Hc).
    pose proof (tour_not_Fault fuel boardSize.1 boardSize.2 start.1 start.2
                  cout2 Hr Hc) as Hnf3.
    by destruct (tour fuel boardSize.1 boardSize.2 start.1 start.2 cout2).
  - intros Hfuel boardSize cin1 cout1 start cin2 cout2 H1 H2.
    destruct (Hconf _ _ _ _ _ _ H1 H2) as ([Hrows Hcols] & Hr & Hc).
    destruct (tour_returns fuel boardSize.1 boardSize.2 start.1 start.2 cout2 Hr Hc)
      as [w Hw]; [nia|].
    unfold main. rewrite H1. simpl. rewrite H2. simpl. rewrite Hw. simpl. eauto.
Qed.

Lemma main_never_faults_witness : ∃ out, main 100 demo_input = Ret (0, out).
Proof.
  eapply (proj2 (main_never_faults 100 demo_input) ltac:(lia)
            (3, 3) [Some 2; Some 2] _ (1, 1) [] _); reflexivity.
Defined.

(** X17. The start square must be on the board: [tour] called with a
    start square off the board writes the knight outside the vector, which
    is the outcome [Fault].  ([main] only passes squares that
    [getPairFromUser] has checked.) *)
Theorem tour_off_board_start_faults :
  ∀ (fuel : nat) (rows cols startRow startCol : Z) (cout : list string),
    0 ≤ rows → 0 ≤ cols →
    isOnBoard startRow startCol rows cols = false →
    tour fuel rows cols startRow startCol cout = Fault.
Proof.
  intros fuel rows cols startRow startCol cout Hrows Hcols Hoff. unfold tour.
  rewrite (board_set_off_board _ rows cols); [done| |done].
  split.
  - unfold vec_size. rewrite length_replicate. lia.
  - apply Forall_replicate. unfold vec_size. rewrite length_replicate. lia.
Qed.

Lemma tour_off_board_start_faults_witness : tour 9 3 3 3 0 [] = Fault.
Proof.
  apply (tour_off_board_start_faults 9 3 3 3 0 []).
  - lia.
  - lia.
  - reflexivity.
Defined.

(** ** The generator and the writes of a move *)

(** X18. [findMovesFromSquare] only tells the cells that hold 2 from the
    others: on two grids of the same size whose cells holding 2 are the
    same, it returns the same squares for every source (so a cell holding
    1 is a target like a cell holding 0). *)
Theorem findMovesFromSquare_reads_visited_only :
  ∀ (x y boardX boardY : Z) (Board1 Board2 : board),
    board_dims Board1 boardX boardY → board_dims Board2 boardX boardY →
    (∀ a b, board_at Board1 a b = Ret 2 ↔ board_at Board2 a b = Ret 2) →
    findMovesFromSquare x y boardX boardY Board1
    = findMovesFromSquare x y boardX boardY Board2.
Proof.
  intros x y boardX boardY Board1 Board2 Hd1 Hd2 Hsame.
  rewrite !findMovesFromSquare_total by done. f_equal.
  unfold candidates. apply list_filter_iff. intros p.
  rewrite !legal_spec. split; intros [Hon (c & Hc & Hc2)]; (split; [done|]).
  - destruct (board_at_on_board Board2 boardX boardY p.1 p.2 Hd2) as [c' Hc'];
      [by apply isOnBoard_spec|].
    exists c'. split; [done|]. intros ->. apply Hsame in Hc'. congruence.
  - destruct (board_at_on_board Board1 boardX boardY p.1 p.2 Hd1) as [c' Hc'];
      [by apply isOnBoard_spec|].
    exists c'. split; [done|]. intros ->. apply Hsame in Hc'. congruence.
Qed.

Lemma findMovesFromSquare_reads_visited_only_witness :
  findMovesFromSquare 0 0 2 3 [[1;0;0]; [0;2;0]]
  = findMovesFromSquare 0 0 2 3 [[0;1;1]; [1;2;1]].
Proof.
  apply (findMovesFromSquare_reads_visited_only 0 0 2 3
           [[1;0;0]; [0;2;0]] [[0;1;1]; [1;2;1]]).
  - split; [reflexivity|]. repeat constructor.
  - split; [reflexivity|]. repeat constructor.
  - intros a b. rewrite !board_at_Ret.
    split; intros (Ha & Hb & row & Hrow & Hcell); (split; [done|split; [done|]]).
    + destruct (Z.to_nat a) as [|[|[|n]]]; simpl in Hrow; try done;
        injection Hrow as <-;
        destruct (Z.to_nat b) as [|[|[|m]]]; simpl in Hcell; try done.
      eexists. split; [reflexivity|]. exact Hcell.
    + destruct (Z.to_nat a) as [|[|[|n]]]; simpl in Hrow; try done;
        injection Hrow as <-;
        destruct (Z.to_nat b) as [|[|[|m]]]; simpl in Hcell; try done.
      eexists. split; [reflexivity|]. exact Hcell.
Defined.

(** X19. Marking a cell visited removes it from what the generator
    returns and changes nothing else: after [Board[a][b] = 2] on a grid of
    the announced size, [findMovesFromSquare] returns for every source the
    squares it returned before, in the same order, without (a, b). *)
Theorem findMovesFromSquare_after_visit :
  ∀ (x y boardX boardY a b : Z) (Board Board' : board),
    board_dims Board boardX boardY →
    board_set Board a b 2 = Ret Board' →
    ∃ l, findMovesFromSquare x y boardX boardY Board = Ret l ∧
         findMovesFromSquare x y boardX boardY Board'
         = Ret (filter (λ p, p ≠ (a, b)) l).
Proof.
  intros x y boardX boardY a b Board Board' Hdims Hset.
  pose proof (board_dims_set _ _ _ _ _ _ _ Hdims Hset) as Hdims'.
  exists (candidates x y boardX boardY Board).
  split; [by apply findMovesFromSquare_total|].
  rewrite findMovesFromSquare_total by done. f_equal.
  unfold candidates. rewrite list_filter_filter.
  apply list_filter_iff. intros p. rewrite !legal_spec.
  destruct (decide (p = (a, b))) as [->|Hne].
  - simpl. rewrite (board_at_set_eq _ _ _ _ _ Hset). split.
    + intros [_ (c & [= <-] & Hc)]. done.
    + intros [Hab _]. done.
  - rewrite (board_at_set_ne _ _ _ _ _ p.1 p.2 Hset)
      by (by rewrite <- surjective_pairing).
    split; [by intros ?|by intros [_ ?]].
Qed.

Lemma findMovesFromSquare_after_visit_witness :
  ∃ l, findMovesFromSquare 0 0 3 4 [[1;0;0;0]; [0;0;0;0]; [0;0;0;0]] = Ret l ∧
       findMovesFromSquare 0 0 3 4 [[1;0;0;0]; [0;0;2;0]; [0;0;0;0]]
       = Ret (filter (λ p, p ≠ (1, 2)) l).
Proof.
  apply (findMovesFromSquare_after_visit 0 0 3 4 1 2
           [[1;0;0;0]; [0;0;0;0]; [0;0;0;0]] [[1;0;0;0]; [0;0;2;0]; [0;0;0;0]]).
  - split; [reflexivity|]. repeat constructor.
  - reflexivity.
Defined.
